(** * EventEmitter: a shallow embedding of [dist/event-emitter.cjs.js]

    The class keeps one private field, [#events], a [Map] from event
    names to arrays of listeners.  Arrays are JavaScript objects: [emit]
    holds a reference to the array it iterates while the listeners it
    calls may, through [this], call [on], [off] and [removeAllListeners]
    on the very same emitter.  The embedding therefore keeps the arrays
    in a store indexed by locations, and the map sends names to
    locations.

    Methods are computations in a state-and-exception monad over the
    world: the map, the array store, what was written with
    [console.error], and the trace of the listener calls made so far.
    Event names are strings, as the documentation of the class has
    them.  A function is known by its identity and by its body, a
    script of calls back into the emitter followed by a return or a
    throw, given for each function and argument list by a table
    [code]. *)

From stdpp Require Import base option list gmap strings.

Open Scope string_scope.
Open Scope list_scope.
Open Scope nat_scope.

(** ** JavaScript values *)

(** Only what the emitter can observe of a value is kept: whether
    [typeof v] is ["function"], and which values are equal to which.
    [VNumber] stands for the numbers other than [NaN]; [VThis] is the
    emitter instance itself; [VTypeError] is a [TypeError] object,
    identified by its message. *)
Inductive value :=
  | VUndefined
  | VNull
  | VBool (b : bool)
  | VNumber (n : Z)
  | VNaN
  | VString (s : string)
  | VFunction (f : nat)
  | VObject (o : nat)
  | VThis
  | VTypeError (msg : string).

Global Instance value_eq_dec : EqDecision value.
Proof. solve_decision. Defined.

(** [typeof v === "function"] *)
Definition is_function (v : value) : bool :=
  match v with VFunction _ => true | _ => false end.

(** [a === b], the comparison of [Array.prototype.indexOf] *)
Definition strict_equals (a b : value) : bool :=
  match a, b with
  | VNaN, _ | _, VNaN => false
  | _, _ => bool_decide (a = b)
  end.

(** SameValueZero, the comparison of [Array.prototype.includes] *)
Definition same_value_zero (a b : value) : bool := bool_decide (a = b).

(** Truthiness of an argument that is either omitted or a string, as
    tested by [if (event)]: [undefined] and the empty string are falsy. *)
Definition truthy (event : option string) : bool :=
  match event with
  | None => false
  | Some s => negb (bool_decide (s = ""))
  end.

(** ** Array operations, on the contents of an array *)

Definition includes (ls : list value) (v : value) : bool :=
  existsb (fun x => same_value_zero x v) ls.

Fixpoint indexOf_from (ls : list value) (v : value) (i : Z) : Z :=
  match ls with
  | [] => (-1)%Z
  | x :: rest => if strict_equals x v then i else indexOf_from rest v (i + 1)%Z
  end.

Definition indexOf (ls : list value) (v : value) : Z := indexOf_from ls v 0%Z.

(** [ls.splice(start, count)], the array left behind *)
Definition splice (start count : nat) (ls : list value) : list value :=
  take start ls ++ drop (start + count) ls.

(** ** The world: the emitter, the array store, and what is observed *)

Definition loc := nat.

Record world := World {
  events : gmap string loc;            (* this.#events *)
  arrays : gmap loc (list value);      (* the Array objects *)
  console : list (string * value);     (* console.error(event, error) *)
  calls : list (value * list value)    (* listener invocations, in order *)
}.

(** [new EventEmitter()] *)
Definition new_emitter : world :=
  {| events := ∅; arrays := ∅; console := []; calls := [] |}.

Inductive completion (A : Type) :=
  | Normal (a : A)
  | Throw (e : value).
Arguments Normal {A} a.
Arguments Throw {A} e.

(** A computation runs in a world and completes normally or by a throw;
    what it did to the world before throwing stays done. *)
Definition M (A : Type) : Type := world → completion A * world.

Global Instance M_ret : MRet M := λ A a w, (Normal a, w).
Global Instance M_bind : MBind M := λ A B f m w,
  match m w with
  | (Normal a, w') => f a w'
  | (Throw e, w') => (Throw e, w')
  end.

Definition throw {A} (e : value) : M A := λ w, (Throw e, w).

Definition try_catch {A} (body : M A) (handler : value → M A) : M A := λ w,
  match body w with
  | (Normal a, w') => (Normal a, w')
  | (Throw e, w') => handler e w'
  end.

Definition contents (w : world) (l : loc) : list value :=
  default [] (arrays w !! l).

Definition set_events (m : gmap string loc) (w : world) : world :=
  {| events := m; arrays := arrays w; console := console w; calls := calls w |}.

Definition set_array (l : loc) (ls : list value) (w : world) : world :=
  {| events := events w; arrays := <[l := ls]> (arrays w);
     console := console w; calls := calls w |}.

(** [this.#events.get(event)] *)
Definition map_get (event : string) : M (option loc) :=
  λ w, (Normal (events w !! event), w).

(** [this.#events.set(event, listeners)] *)
Definition map_set (event : string) (l : loc) : M unit :=
  λ w, (Normal tt, set_events (<[event := l]> (events w)) w).

(** [this.#events.delete(event)] *)
Definition map_delete (event : string) : M unit :=
  λ w, (Normal tt, set_events (delete event (events w)) w).

(** [this.#events.clear()] *)
Definition map_clear : M unit :=
  λ w, (Normal tt, set_events ∅ w).

(** The array literal [[]]: a new array object *)
Definition array_new : M loc :=
  λ w, let l := fresh (dom (arrays w)) in (Normal l, set_array l [] w).

Definition array_includes (l : loc) (v : value) : M bool :=
  λ w, (Normal (includes (contents w l) v), w).

Definition array_push (l : loc) (v : value) : M unit :=
  λ w, (Normal tt, set_array l (contents w l ++ [v]) w).

Definition array_indexOf (l : loc) (v : value) : M Z :=
  λ w, (Normal (indexOf (contents w l) v), w).

Definition array_splice (l : loc) (start count : nat) : M unit :=
  λ w, (Normal tt, set_array l (splice start count (contents w l)) w).

Definition array_length (l : loc) : M nat :=
  λ w, (Normal (length (contents w l)), w).

(** [listeners[i]]: [undefined] past the end *)
Definition array_get (l : loc) (i : nat) : M value :=
  λ w, (Normal (default VUndefined (contents w l !! i)), w).

Definition console_error (event : string) (error : value) : M unit :=
  λ w, (Normal tt,
        {| events := events w; arrays := arrays w;
           console := console w ++ [(event, error)]; calls := calls w |}).

Definition record_call (f : value) (args : list value) : M unit :=
  λ w, (Normal tt,
        {| events := events w; arrays := arrays w;
           console := console w; calls := calls w ++ [(f, args)] |}).

(** ** The methods that do not call listeners *)

(** [new TypeError("Listener must be a function")] *)
Definition not_a_function : value := VTypeError "Listener must be a function".

Definition on (event : string) (listener : value) : M value :=
  if negb (is_function listener) then
    throw not_a_function
  else
    found ← map_get event;
    listeners ← match found with Some l => mret l | None => array_new end;
    present ← array_includes listeners listener;
    (if negb present then array_push listeners listener else mret tt) ;;
    map_set event listeners ;;
    mret VThis.

Definition off (event : string) (listener : value) : M value :=
  found ← map_get event;
  match found with
  | None => mret VThis
  | Some listeners =>
      index ← array_indexOf listeners listener;
      (if bool_decide (index ≠ (-1)%Z) then
         array_splice listeners (Z.to_nat index) 1 ;;
         len ← array_length listeners;
         if bool_decide (len = 0) then map_delete event
         else map_set event listeners
       else mret tt) ;;
      mret VThis
  end.

(** [event] is [None] when the argument is omitted. *)
Definition removeAllListeners (event : option string) : M value :=
  (if truthy event then
     match event with
     | Some name => map_delete name
     | None => mret tt
     end
   else map_clear) ;;
  mret VThis.

(** ** Listeners *)

(** A listener is called with [this] bound to the emitter, so its body
    may call the emitter back.  What a body does to the emitter is a
    sequence of calls of [on], [off] and [removeAllListeners], after
    which it returns or throws; a call that throws ends the body with
    that throw.  Bodies that call [emit] from inside a listener are
    outside this model. *)
Inductive action :=
  | CallOn (event : string) (listener : value)
  | CallOff (event : string) (listener : value)
  | CallRemoveAllListeners (event : option string).

Record script := Script {
  script_actions : list action;
  script_end : completion value
}.

Definition run_action (a : action) : M value :=
  match a with
  | CallOn event listener => on event listener
  | CallOff event listener => off event listener
  | CallRemoveAllListeners event => removeAllListeners event
  end.

Fixpoint run_actions (acts : list action) : M unit :=
  match acts with
  | [] => mret tt
  | a :: rest => run_action a ;; run_actions rest
  end.

Definition run_script (s : script) : M value :=
  run_actions (script_actions s) ;;
  match script_end s with
  | Normal v => mret v
  | Throw e => throw e
  end.

Section Emitter.

(** The program text: the body of function [f] applied to [args]. *)
Variable code : nat → list value → script.

(** [x.apply(this, args)] *)
Definition fn_apply (x : value) (args : list value) : M value :=
  match x with
  | VFunction f => record_call x args ;; run_script (code f args)
  | VUndefined =>
      throw (VTypeError "Cannot read properties of undefined (reading 'apply')")
  | VNull =>
      throw (VTypeError "Cannot read properties of null (reading 'apply')")
  | _ => throw (VTypeError "listeners[i].apply is not a function")
  end.

(** The [for] loop of [emit], with [remaining = n - i] iterations to go.
    [listeners] is the array fetched before the loop, read again at each
    iteration. *)
Fixpoint emit_loop (event : string) (args : list value) (listeners : loc)
    (remaining i : nat) : M unit :=
  match remaining with
  | 0 => mret tt
  | S remaining' =>
      try_catch
        (x ← array_get listeners i; fn_apply x args ;; mret tt)
        (λ error, console_error event error) ;;
      emit_loop event args listeners remaining' (S i)
  end.

Definition emit (event : string) (args : list value) : M value :=
  found ← map_get event;
  match found with
  | None => mret (VBool false)
  | Some listeners =>
      n ← array_length listeners;
      if bool_decide (n = 0) then mret (VBool false)
      else emit_loop event args listeners n 0 ;; mret (VBool true)
  end.

(** ** Calls from outside, and the states they lead to *)

Inductive call :=
  | On (event : string) (listener : value)
  | Off (event : string) (listener : value)
  | Emit (event : string) (args : list value)
  | RemoveAllListeners (event : option string).

Definition run_call (c : call) : M value :=
  match c with
  | On event listener => on event listener
  | Off event listener => off event listener
  | Emit event args => emit event args
  | RemoveAllListeners event => removeAllListeners event
  end.

Inductive reachable : world → Prop :=
  | reachable_new : reachable new_emitter
  | reachable_call w c : reachable w → reachable (run_call c w).2.

(** The listener sequence of an event, if the event is a key. *)
Definition listeners_of (w : world) (event : string) : option (list value) :=
  l ← events w !! event; arrays w !! l.

End Emitter.

(** ** What a listener body is known to do, without running it *)

(** The first call in a body that throws, if any: only [on] throws, when
    handed something that is not a function. *)
Fixpoint actions_outcome (acts : list action) : completion unit :=
  match acts with
  | [] => Normal tt
  | CallOn _ listener :: rest =>
      if is_function listener then actions_outcome rest
      else Throw not_a_function
  | _ :: rest => actions_outcome rest
  end.

Definition script_outcome (s : script) : completion value :=
  match actions_outcome (script_actions s) with
  | Normal _ => script_end s
  | Throw e => Throw e
  end.

(** A call of [off] for the given event *)
Definition unregisters (event : string) (a : action) : bool :=
  match a with
  | CallOff e _ => bool_decide (e = event)
  | _ => false
  end.

(** Number of invocations of a listener in a trace of calls *)
Definition invocations (v : value) (trace : list (value * list value)) : nat :=
  length (filter (λ c, c.1 = v) trace).

Section Dispatch.

Variable code : nat → list value → script.

(** The body of listener [v], called with [args], does not call [off]
    for [event]. *)
Definition quiet_listener (event : string) (args : list value) (v : value)
    : Prop :=
  match v with
  | VFunction f =>
      Forall (λ a, unregisters event a = false) (script_actions (code f args))
  | _ => True
  end.

(** No listener of the sequence, called with [args], calls [off] for
    [event]. *)
Definition quiet (event : string) (args : list value) (ls : list value) : Prop :=
  Forall (quiet_listener event args) ls.

(** How [x.apply(this, args)] completes: a function completes as its
    body does, anything else cannot be called. *)
Definition apply_outcome (x : value) (args : list value) : completion value :=
  match x with
  | VFunction f => script_outcome (code f args)
  | VUndefined =>
      Throw (VTypeError "Cannot read properties of undefined (reading 'apply')")
  | VNull =>
      Throw (VTypeError "Cannot read properties of null (reading 'apply')")
  | _ => Throw (VTypeError "listeners[i].apply is not a function")
  end.

(** What one iteration of [emit] writes on the console when it finds
    [x] in the array *)
Definition report (event : string) (args : list value) (x : value)
    : option (string * value) :=
  match apply_outcome x args with
  | Throw e => Some (event, e)
  | Normal _ => None
  end.

End Dispatch.

(** ** Predicates on worlds *)

(** Every key owns an array of its own, which is not empty, holds no
    listener twice and holds functions only. *)
Definition good_sequence (ls : list value) : Prop :=
  ls ≠ [] ∧ NoDup ls ∧ Forall (λ v, is_function v = true) ls.

Definition wf (w : world) : Prop :=
  (∀ event l, events w !! event = Some l →
     ∃ ls, arrays w !! l = Some ls ∧ good_sequence ls) ∧
  (∀ e1 e2 l, events w !! e1 = Some l → events w !! e2 = Some l → e1 = e2).

(** The two ways a call of [off] can go. *)
Inductive off_outcome (event : string) (listener : value) (w : world) : Prop :=
  | off_nothing :
      off event listener w = (Normal VThis, w) →
      (∀ l, events w !! event = Some l →
         indexOf (contents w l) listener = (-1)%Z) →
      off_outcome event listener w
  | off_removed l pre x post :
      events w !! event = Some l →
      contents w l = pre ++ x :: post →
      strict_equals x listener = true →
      (∀ y, y ∈ pre → strict_equals y listener = false) →
      off event listener w =
        (Normal VThis,
         if bool_decide (pre ++ post = []) then
           set_events (delete event (events w)) (set_array l [] w)
         else set_array l (pre ++ post) w) →
      off_outcome event listener w.

(** The methods other than [emit] neither log nor call anything. *)
Definition same_observed (w w' : world) : Prop :=
  console w' = console w ∧ calls w' = calls w.

(** While [emit] iterates the array [l] it fetched for [event]: no other
    key owns [l], and [l] still starts with the sequence [ls] it held
    when the loop began. *)
Definition iterating (event : string) (l : loc) (ls : list value)
    (w : world) : Prop :=
  (∀ e, events w !! e = Some l → e = event) ∧
  ∃ ext, arrays w !! l = Some (ls ++ ext).

(** ** A sample program *)

(** Five functions, as they could be written against an emitter [e]:
<<
  const f0 = function () { this.off("x", f0); };
  const f1 = function () {};
  const f2 = function () { this.off("x", f2); throw "boom"; };
  const f3 = function () { this.off("x", f3); this.on("x", f3); };
  const f4 = function () { throw "boom"; };
>> *)
Definition sample_code (f : nat) (args : list value) : script :=
  match f with
  | 0 => Script [CallOff "x" (VFunction 0)] (Normal VUndefined)
  | 2 => Script [CallOff "x" (VFunction 2)] (Throw (VString "boom"))
  | 3 => Script [CallOff "x" (VFunction 3); CallOn "x" (VFunction 3)]
           (Normal VUndefined)
  | 4 => Script [] (Throw (VString "boom"))
  | _ => Script [] (Normal VUndefined)
  end.

(** A sequence of calls from outside, in order *)
Definition run_calls (code : nat → list value → script) (cs : list call)
    (w : world) : world :=
  foldl (λ w c, (run_call code c w).2) w cs.

(** ** Kinds of listener bodies *)

Section Bodies.

Variable code : nat → list value → script.

(** The body of listener [v], called with [args], makes no call on the
    emitter. *)
Definition inert_listener (args : list value) (v : value) : Prop :=
  match v with
  | VFunction f => script_actions (code f args) = []
  | _ => True
  end.

Definition inert (args : list value) (ls : list value) : Prop :=
  Forall (inert_listener args) ls.

(** A call that can take a listener out of the sequence of [event], or
    the sequence out of the map: [off] for [event], or
    [removeAllListeners]. *)
Definition detaches (event : string) (a : action) : bool :=
  match a with
  | CallOn _ _ => false
  | CallOff e _ => bool_decide (e = event)
  | CallRemoveAllListeners _ => true
  end.

Definition keeping_listener (event : string) (args : list value) (v : value)
    : Prop :=
  match v with
  | VFunction f =>
      Forall (λ a, detaches event a = false) (script_actions (code f args))
  | _ => True
  end.

(** No listener of the sequence, called with [args], calls [off] for
    [event] or [removeAllListeners]. *)
Definition keeping (event : string) (args : list value) (ls : list value)
    : Prop :=
  Forall (keeping_listener event args) ls.

End Bodies.

(** The body reaches a call [on(event, g)] with [g] a function: no call
    before it throws. *)
Definition registers (event : string) (g : value) (acts : list action) : Prop :=
  ∃ before rest,
    acts = before ++ CallOn event g :: rest ∧
    actions_outcome before = Normal tt ∧
    is_function g = true.

(** The sequence of an event after [on], from the one before *)
Definition registered (listener : value) (before : option (list value))
    : list value :=
  match before with
  | Some ls => if bool_decide (listener ∈ ls) then ls else ls ++ [listener]
  | None => [listener]
  end.

(** What a loop over indices [i], ..., [i + n - 1] reads in an array
    whose contents stay [arr] *)
Definition read_range (arr : list value) (i n : nat) : list value :=
  (λ j, default VUndefined (arr !! j)) <$> seq i n.

(** ** Listeners that dispatch *)

(** A listener is called with [this] bound to the emitter, so its body
    may also call [emit], for the event being dispatched or another
    one.  The bodies of this section add that call to those of
    [action].  A dispatch started from inside a listener runs to its
    end before the listener goes on, so [emit] is here defined by
    recursion on the depth to which dispatches may still nest, and a
    computation has no result when they nest deeper. *)
Inductive reentrant_action :=
  | Plain (a : action)
  | CallEmit (event : string) (args : list value).

Record reentrant_script := ReentrantScript {
  body_actions : list reentrant_action;
  body_end : completion value
}.

(** A computation that may have no result *)
Definition D (A : Type) : Type := world → option (completion A * world).

Global Instance D_ret : MRet D := λ A a w, Some (Normal a, w).
Global Instance D_bind : MBind D := λ A B f m w,
  match m w with
  | Some (Normal a, w') => f a w'
  | Some (Throw e, w') => Some (Throw e, w')
  | None => None
  end.

Definition lift {A} (m : M A) : D A := λ w, Some (m w).

Definition no_result {A} : D A := λ _, None.

Definition try_catch_D {A} (body : D A) (handler : value → D A) : D A := λ w,
  match body w with
  | Some (Normal a, w') => Some (Normal a, w')
  | Some (Throw e, w') => handler e w'
  | None => None
  end.

Section Reentrant.

(** The program text, with bodies that may call [emit] *)
Variable rcode : nat → list value → reentrant_script.

Section Nested.

(** [emit] as a listener can call it: one level deeper *)
Variable nested_emit : string → list value → D value.

Definition run_reentrant_action (a : reentrant_action) : D value :=
  match a with
  | Plain a => lift (run_action a)
  | CallEmit event args => nested_emit event args
  end.

Fixpoint run_reentrant_actions (acts : list reentrant_action) : D unit :=
  match acts with
  | [] => mret tt
  | a :: rest => run_reentrant_action a ;; run_reentrant_actions rest
  end.

Definition run_reentrant_script (s : reentrant_script) : D value :=
  run_reentrant_actions (body_actions s) ;;
  match body_end s with
  | Normal v => mret v
  | Throw e => lift (throw e)
  end.

(** [x.apply(this, args)] *)
Definition fn_apply_reentrant (x : value) (args : list value) : D value :=
  match x with
  | VFunction f =>
      lift (record_call x args) ;; run_reentrant_script (rcode f args)
  | VUndefined =>
      lift (throw (VTypeError
        "Cannot read properties of undefined (reading 'apply')"))
  | VNull =>
      lift (throw (VTypeError
        "Cannot read properties of null (reading 'apply')"))
  | _ => lift (throw (VTypeError "listeners[i].apply is not a function"))
  end.

Fixpoint emit_loop_reentrant (event : string) (args : list value)
    (listeners : loc) (remaining i : nat) : D unit :=
  match remaining with
  | 0 => mret tt
  | S remaining' =>
      try_catch_D
        (x ← lift (array_get listeners i);
         fn_apply_reentrant x args ;; mret tt)
        (λ error, lift (console_error event error)) ;;
      emit_loop_reentrant event args listeners remaining' (S i)
  end.

Definition emit_at (event : string) (args : list value) : D value :=
  found ← lift (map_get event);
  match found with
  | None => mret (VBool false)
  | Some listeners =>
      n ← lift (array_length listeners);
      if bool_decide (n = 0) then mret (VBool false)
      else emit_loop_reentrant event args listeners n 0 ;; mret (VBool true)
  end.

End Nested.

(** [emit], with [depth] further dispatches allowed inside it *)
Fixpoint emit_reentrant (depth : nat) : string → list value → D value :=
  emit_at
    (match depth with
     | 0 => λ _ _, no_result
     | S depth' => emit_reentrant depth'
     end).

Definition run_call_reentrant (depth : nat) (c : call) : D value :=
  match c with
  | On event listener => lift (on event listener)
  | Off event listener => lift (off event listener)
  | Emit event args => emit_reentrant depth event args
  | RemoveAllListeners event => lift (removeAllListeners event)
  end.

(** The states reached from a new emitter by calls that have a result *)
Inductive reachable_reentrant : world → Prop :=
  | reachable_reentrant_new : reachable_reentrant new_emitter
  | reachable_reentrant_call w depth c r w' :
      reachable_reentrant w →
      run_call_reentrant depth c w = Some (r, w') →
      reachable_reentrant w'.

End Reentrant.

(** The calls of a body that are reached: those up to the first that
    throws, a call of [on] with something that is not a function. *)
Definition throws_at (a : reentrant_action) : bool :=
  match a with
  | Plain (CallOn _ listener) => negb (is_function listener)
  | _ => false
  end.

Fixpoint reached (acts : list reentrant_action) : list reentrant_action :=
  match acts with
  | [] => []
  | a :: rest => a :: (if throws_at a then [] else reached rest)
  end.

Definition calls_emit (a : reentrant_action) : bool :=
  match a with
  | CallEmit _ _ => true
  | Plain _ => false
  end.

Definition plain_action (a : reentrant_action) : option action :=
  match a with
  | Plain a => Some a
  | CallEmit _ _ => None
  end.

(** What a body does in calls of [on], [off] and [removeAllListeners] *)
Definition plain (rcode : nat → list value → reentrant_script)
    (f : nat) (args : list value) : script :=
  Script (omap plain_action (reached (body_actions (rcode f args))))
         (body_end (rcode f args)).

(** The body of listener [v], called with [args], reaches no call of
    [emit]. *)
Definition dispatch_free_listener
    (rcode : nat → list value → reentrant_script)
    (args : list value) (v : value) : Prop :=
  match v with
  | VFunction f =>
      Forall (λ a, calls_emit a = false) (reached (body_actions (rcode f args)))
  | _ => True
  end.

Definition dispatch_free (rcode : nat → list value → reentrant_script)
    (args : list value) (ls : list value) : Prop :=
  Forall (dispatch_free_listener rcode args) ls.

(** A program whose bodies call [on], [off] and [removeAllListeners]
    only, as a program of this section *)
Definition embed (code : nat → list value → script)
    (f : nat) (args : list value) : reentrant_script :=
  ReentrantScript (Plain <$> script_actions (code f args))
                  (script_end (code f args)).

(** A sample program in which listeners dispatch and register:
<<
  const h0 = function () { this.emit("y", 1); };
  const h1 = function () { throw "boom"; };
  const h2 = function () {};
  const h3 = function (n) {
    if (n === undefined) { this.on("x", h2); this.emit("x", 1); }
  };
  const h4 = function () { this.emit("x"); };
  const h5 = function () { this.on("x", h2); };
  const h6 = function () { this.on("x", 7); this.off("x", h6); };
>> *)
Definition dispatching_code (f : nat) (args : list value) : reentrant_script :=
  match f with
  | 0 => ReentrantScript [CallEmit "y" [VNumber 1]] (Normal VUndefined)
  | 1 => ReentrantScript [] (Throw (VString "boom"))
  | 3 => match args with
         | [] => ReentrantScript
                   [Plain (CallOn "x" (VFunction 2)); CallEmit "x" [VNumber 1]]
                   (Normal VUndefined)
         | _ => ReentrantScript [] (Normal VUndefined)
         end
  | 4 => ReentrantScript [CallEmit "x" []] (Normal VUndefined)
  | 5 => ReentrantScript [Plain (CallOn "x" (VFunction 2))] (Normal VUndefined)
  | 6 => ReentrantScript
           [Plain (CallOn "x" (VNumber 7)); Plain (CallOff "x" (VFunction 6))]
           (Normal VUndefined)
  | _ => ReentrantScript [] (Normal VUndefined)
  end.

Definition run_calls_reentrant (rcode : nat → list value → reentrant_script)
    (depth : nat) (cs : list call) (w : world) : option world :=
  foldl (λ ow c, w ← ow; snd <$> run_call_reentrant rcode depth c w)
        (Some w) cs.

(** * Properties *)

(** ** Equality tests and array operations *)

Lemma strict_equals_true a b : strict_equals a b = true → a = b.
Proof.
  destruct a, b; unfold strict_equals; try discriminate;
    apply bool_decide_eq_true_1.
Qed.

Lemma strict_equals_not_NaN a b :
  b ≠ VNaN → strict_equals a b = bool_decide (a = b).
Proof.
  intros Hb. destruct a, b; unfold strict_equals; try reflexivity;
    try congruence; by rewrite bool_decide_eq_false_2.
Qed.

Lemma is_function_not_NaN v : is_function v = true → v ≠ VNaN.
Proof. destruct v; simpl; congruence. Qed.

Lemma includes_true ls v : includes ls v = true ↔ v ∈ ls.
Proof.
  unfold includes, same_value_zero. induction ls as [|x ls IH]; simpl.
  - split; [discriminate | intros H; inversion H].
  - rewrite orb_true_iff, IH, bool_decide_eq_true, elem_of_cons.
    split; intros [->|H]; auto.
Qed.

Lemma includes_false ls v : includes ls v = false ↔ v ∉ ls.
Proof.
  rewrite <- includes_true. destruct (includes ls v); split; congruence.
Qed.

Lemma indexOf_from_absent ls v i :
  (∀ x, x ∈ ls → strict_equals x v = false) → indexOf_from ls v i = (-1)%Z.
Proof.
  revert i. induction ls as [|x ls IH]; intros i H; simpl; [reflexivity|].
  rewrite (H x) by (apply elem_of_cons; auto).
  apply IH. intros y Hy. apply H. apply elem_of_cons; auto.
Qed.

Lemma indexOf_from_found ls v i j :
  (0 ≤ i)%Z → indexOf_from ls v i = j → j ≠ (-1)%Z →
  ∃ pre x post, ls = pre ++ x :: post ∧ j = (i + Z.of_nat (length pre))%Z ∧
    strict_equals x v = true ∧ ∀ y, y ∈ pre → strict_equals y v = false.
Proof.
  revert i. induction ls as [|x ls IH]; intros i Hi; simpl; [congruence|].
  destruct (strict_equals x v) eqn:E.
  - intros <- _. exists [], x, ls. simpl. repeat split; [lia|done|].
    intros y Hy. inversion Hy.
  - intros Hj Hne. destruct (IH (i + 1)%Z) as (pre & y & post & -> & -> & Hy & Hpre);
      [lia|done|done|].
    exists (x :: pre), y, post. simpl. repeat split; [lia|done|].
    intros z Hz. apply elem_of_cons in Hz as [->|Hz]; auto.
Qed.

Lemma indexOf_from_first pre v post i :
  v ≠ VNaN → v ∉ pre →
  indexOf_from (pre ++ v :: post) v i = (i + Z.of_nat (length pre))%Z.
Proof.
  intros Hv. revert i. induction pre as [|x pre IH]; intros i Hpre; simpl.
  - rewrite strict_equals_not_NaN, bool_decide_eq_true_2 by done. lia.
  - apply not_elem_of_cons in Hpre as [Hx Hpre].
    rewrite strict_equals_not_NaN, bool_decide_eq_false_2 by done.
    rewrite IH by done. lia.
Qed.

Lemma indexOf_first pre v post :
  v ≠ VNaN → v ∉ pre → indexOf (pre ++ v :: post) v = Z.of_nat (length pre).
Proof.
  intros Hv Hpre. unfold indexOf. by rewrite indexOf_from_first.
Qed.

Lemma indexOf_absent ls v : v ∉ ls → indexOf ls v = (-1)%Z.
Proof.
  intros Hv. apply indexOf_from_absent. intros x Hx.
  destruct (strict_equals x v) eqn:E; [|done].
  apply strict_equals_true in E. congruence.
Qed.

Lemma splice_one pre x post :
  splice (length pre) 1 (pre ++ x :: post) = pre ++ post.
Proof.
  unfold splice. rewrite take_app_length.
  replace (length pre + 1) with (length pre + 1 + 0) by lia.
  rewrite <- Nat.add_assoc, drop_app_add. reflexivity.
Qed.

Lemma splice_one_delete i ls : splice i 1 ls = delete i ls.
Proof.
  unfold splice. revert i. induction ls as [|x ls IH]; intros [|i]; simpl.
  - reflexivity.
  - reflexivity.
  - by rewrite drop_0.
  - by rewrite IH.
Qed.

(** ** What each method does to the world *)

Lemma set_events_same w : set_events (events w) w = w.
Proof. by destruct w. Qed.

Lemma set_events_insert_same w event l :
  events w !! event = Some l → set_events (<[event := l]> (events w)) w = w.
Proof. intros H. rewrite insert_id by done. apply set_events_same. Qed.

Lemma contents_set_array_eq w l ls : contents (set_array l ls w) l = ls.
Proof. unfold contents. simpl. by rewrite lookup_insert_eq. Qed.

Lemma contents_set_array_ne w l l' ls :
  l ≠ l' → contents (set_array l ls w) l' = contents w l'.
Proof. intros H. unfold contents. simpl. by rewrite lookup_insert_ne. Qed.

Ltac run :=
  unfold mbind, M_bind, mret, M_ret, throw, map_get, map_set, map_delete,
    map_clear, array_new, array_includes, array_push, array_indexOf,
    array_splice, array_length, array_get, console_error, record_call;
  cbn beta iota.

Lemma on_not_function event listener w :
  is_function listener = false →
  on event listener w = (Throw not_a_function, w).
Proof. intros H. unfold on. rewrite H. reflexivity. Qed.

Lemma on_known event listener w l :
  is_function listener = true → events w !! event = Some l →
  on event listener w =
    (Normal VThis,
     if includes (contents w l) listener then w
     else set_array l (contents w l ++ [listener]) w).
Proof.
  intros Hf Hl. unfold on. rewrite Hf. cbn [negb]. run. rewrite Hl. cbn beta iota.
  destruct (includes (contents w l) listener); cbn [negb]; f_equal.
  - by apply set_events_insert_same.
  - by apply (set_events_insert_same (set_array _ _ _)).
Qed.

Lemma on_unknown event listener w :
  is_function listener = true → events w !! event = None →
  on event listener w =
    (Normal VThis,
     let l := fresh (dom (arrays w)) in
     set_events (<[event := l]> (events w)) (set_array l [listener] w)).
Proof.
  intros Hf Hl. unfold on. rewrite Hf. cbn [negb]. run. rewrite Hl. cbn beta iota zeta.
  rewrite contents_set_array_eq. cbn [includes existsb negb].
  rewrite contents_set_array_eq. cbn [app].
  unfold set_events, set_array. cbn [events arrays console calls].
  by rewrite insert_insert_eq.
Qed.

Lemma off_unknown event listener w :
  events w !! event = None → off event listener w = (Normal VThis, w).
Proof. intros Hl. unfold off. run. by rewrite Hl. Qed.

Lemma off_absent event listener w l :
  events w !! event = Some l → indexOf (contents w l) listener = (-1)%Z →
  off event listener w = (Normal VThis, w).
Proof. intros Hl Hi. unfold off. run. by rewrite Hl, Hi. Qed.

Lemma off_found event listener w l pre x post :
  events w !! event = Some l → contents w l = pre ++ x :: post →
  indexOf (contents w l) listener = Z.of_nat (length pre) →
  off event listener w =
    (Normal VThis,
     if bool_decide (pre ++ post = []) then
       set_events (delete event (events w)) (set_array l [] w)
     else set_array l (pre ++ post) w).
Proof.
  intros Hl Hc Hi. unfold off. run. rewrite Hl, Hi. cbn beta iota.
  rewrite bool_decide_eq_true_2 by lia. rewrite Nat2Z.id, Hc, splice_one.
  rewrite contents_set_array_eq.
  destruct (pre ++ post) as [|y rest] eqn:E.
  - reflexivity.
  - rewrite !bool_decide_eq_false_2 by done. f_equal.
    by apply (set_events_insert_same (set_array _ _ _)).
Qed.

Lemma removeAllListeners_named name w :
  name ≠ "" →
  removeAllListeners (Some name) w =
    (Normal VThis, set_events (delete name (events w)) w).
Proof.
  intros H. unfold removeAllListeners, truthy.
  rewrite bool_decide_eq_false_2 by done. reflexivity.
Qed.

Lemma removeAllListeners_empty_name w :
  removeAllListeners (Some "") w = (Normal VThis, set_events ∅ w).
Proof. reflexivity. Qed.

Lemma removeAllListeners_omitted w :
  removeAllListeners None w = (Normal VThis, set_events ∅ w).
Proof. reflexivity. Qed.

(** ** The representation invariant *)

Lemma wf_new_emitter : wf new_emitter.
Proof.
  split.
  - intros event l H. simpl in H. by rewrite lookup_empty in H.
  - intros e1 e2 l H. simpl in H. by rewrite lookup_empty in H.
Qed.

Lemma wf_same_store w w' :
  events w' = events w → arrays w' = arrays w → wf w → wf w'.
Proof. unfold wf. intros -> ->. done. Qed.

Lemma wf_fewer_events w m :
  m ⊆ events w → wf w → wf (set_events m w).
Proof.
  intros Hsub [Hseq Hinj]. split; simpl.
  - intros event l H. apply (Hseq event).
    by eapply lookup_weaken.
  - intros e1 e2 l H1 H2.
    apply (Hinj e1 e2 l); by eapply lookup_weaken.
Qed.

Lemma wf_contents w event l :
  wf w → events w !! event = Some l →
  arrays w !! l = Some (contents w l) ∧ good_sequence (contents w l).
Proof.
  intros [Hseq _] H. destruct (Hseq _ _ H) as (ls & Hls & Hgood).
  unfold contents. rewrite Hls. done.
Qed.

Lemma good_sequence_push ls v :
  good_sequence ls → is_function v = true → v ∉ ls →
  good_sequence (ls ++ [v]).
Proof.
  intros (Hne & Hnd & Hfn) Hv Hnot. repeat split.
  - destruct ls; discriminate.
  - apply NoDup_app. repeat split; [done| |apply NoDup_singleton].
    intros x Hx Hx'. apply list_elem_of_singleton in Hx'. congruence.
  - apply Forall_app. split; [done|]. by constructor.
Qed.

Lemma good_sequence_remove pre x post :
  good_sequence (pre ++ x :: post) → pre ++ post ≠ [] →
  good_sequence (pre ++ post).
Proof.
  intros (_ & Hnd & Hfn) Hne. repeat split; [done| |].
  - apply NoDup_app in Hnd as (Hpre & Hdisj & Hpost).
    apply NoDup_cons in Hpost as [_ Hpost].
    apply NoDup_app. repeat split; [done| |done].
    intros y Hy Hy'. apply (Hdisj y Hy). apply elem_of_cons. auto.
  - apply Forall_app in Hfn as [Hpre Hpost].
    apply Forall_cons in Hpost as [_ Hpost].
    apply Forall_app. done.
Qed.

Lemma wf_set_array w event l ls :
  wf w → events w !! event = Some l → good_sequence ls →
  wf (set_array l ls w).
Proof.
  intros [Hseq Hinj] Hl Hgood. split; simpl; [|done].
  intros e' l' H'. destruct (decide (l' = l)) as [->|Hne].
  - exists ls. by rewrite lookup_insert_eq.
  - rewrite lookup_insert_ne by done. by apply (Hseq e').
Qed.

Lemma wf_on event listener w : wf w → wf (on event listener w).2.
Proof.
  intros Hwf. destruct (is_function listener) eqn:Hf.
  2: { by rewrite on_not_function. }
  destruct (events w !! event) as [l|] eqn:Hl.
  - rewrite (on_known _ _ _ l) by done. simpl.
    destruct (wf_contents _ _ _ Hwf Hl) as [_ Hgood].
    destruct (includes (contents w l) listener) eqn:Hin; [done|].
    apply includes_false in Hin.
    eapply wf_set_array; eauto using good_sequence_push.
  - rewrite on_unknown by done. simpl.
    set (l := fresh (dom (arrays w))).
    assert (Hfresh : arrays w !! l = None).
    { apply not_elem_of_dom. apply is_fresh. }
    destruct Hwf as [Hseq Hinj]. split; simpl.
    + intros e' l' H'. destruct (decide (e' = event)) as [->|Hne].
      * rewrite lookup_insert_eq in H'. injection H' as <-.
        exists [listener]. rewrite lookup_insert_eq. split; [done|].
        repeat split; [done|apply NoDup_singleton|by constructor].
      * rewrite lookup_insert_ne in H' by done.
        destruct (Hseq _ _ H') as (ls & Hls & Hgood).
        exists ls. split; [|done].
        rewrite lookup_insert_ne; [done|]. intros <-. congruence.
    + intros e1 e2 l' H1 H2.
      destruct (decide (e1 = event)) as [->|Hne1];
        destruct (decide (e2 = event)) as [->|Hne2]; [done| | |].
      * rewrite lookup_insert_eq in H1. injection H1 as <-.
        rewrite lookup_insert_ne in H2 by done.
        destruct (Hseq _ _ H2) as (ls & Hls & _). congruence.
      * rewrite lookup_insert_eq in H2. injection H2 as <-.
        rewrite lookup_insert_ne in H1 by done.
        destruct (Hseq _ _ H1) as (ls & Hls & _). congruence.
      * rewrite lookup_insert_ne in H1, H2 by done. eauto.
Qed.

Lemma off_cases event listener w : off_outcome event listener w.
Proof.
  destruct (events w !! event) as [l|] eqn:Hl.
  2: { apply off_nothing; [by apply off_unknown | congruence]. }
  destruct (decide (indexOf (contents w l) listener = (-1)%Z)) as [Hi|Hi].
  { apply off_nothing; [by eapply off_absent | congruence]. }
  destruct (indexOf_from_found (contents w l) listener 0 _ (Z.le_refl 0) eq_refl Hi)
    as (pre & x & post & Hc & Hidx & Hx & Hpre).
  eapply off_removed; eauto.
  eapply off_found; eauto.
Qed.

Lemma wf_off event listener w : wf w → wf (off event listener w).2.
Proof.
  intros Hwf. destruct (off_cases event listener w)
    as [Hoff _ | l pre x post Hl Hc _ _ Hoff]; rewrite Hoff; simpl; [done|].
  destruct (wf_contents _ _ _ Hwf Hl) as [Hls Hgood]. rewrite Hc in Hgood.
  case_bool_decide as Hempty.
  - destruct Hwf as [Hseq Hinj]. split; simpl.
    + intros e' l' H'. apply lookup_delete_Some in H' as [Hne H'].
      destruct (Hseq _ _ H') as (ls & Hls' & Hgood').
      exists ls. split; [|done]. rewrite lookup_insert_ne; [done|].
      intros <-. apply Hne. eauto.
    + intros e1 e2 l' H1 H2.
      apply lookup_delete_Some in H1 as [_ H1].
      apply lookup_delete_Some in H2 as [_ H2]. eauto.
  - eapply wf_set_array; eauto using good_sequence_remove.
Qed.

Lemma wf_removeAllListeners event w :
  wf w → wf (removeAllListeners event w).2.
Proof.
  intros Hwf. destruct event as [name|].
  - destruct (decide (name = "")) as [->|Hne].
    + rewrite removeAllListeners_empty_name. simpl.
      apply wf_fewer_events; [apply map_empty_subseteq | done].
    + rewrite removeAllListeners_named by done. simpl.
      apply wf_fewer_events; [apply delete_subseteq | done].
  - rewrite removeAllListeners_omitted. simpl.
    apply wf_fewer_events; [apply map_empty_subseteq | done].
Qed.

Lemma wf_run_action a w : wf w → wf (run_action a w).2.
Proof.
  destruct a; simpl; auto using wf_on, wf_off, wf_removeAllListeners.
Qed.

Lemma wf_run_actions acts w : wf w → wf (run_actions acts w).2.
Proof.
  revert w. induction acts as [|a acts IH]; intros w Hwf; [done|].
  cbn [run_actions]. run.
  pose proof (wf_run_action a w Hwf) as Ha.
  destruct (run_action a w) as [[v|e] w']; simpl in *; auto.
Qed.

Lemma wf_run_script s w : wf w → wf (run_script s w).2.
Proof.
  intros Hwf. unfold run_script. run.
  pose proof (wf_run_actions (script_actions s) w Hwf) as Ha.
  destruct (run_actions (script_actions s) w) as [[v|e] w']; simpl in *; [|done].
  destruct (script_end s); done.
Qed.

Section EmitterFacts.

Variable code : nat → list value → script.

Lemma wf_fn_apply x args w : wf w → wf (fn_apply code x args w).2.
Proof.
  intros Hwf. destruct x; try done. unfold fn_apply. run.
  apply wf_run_script. revert Hwf. by apply wf_same_store.
Qed.

Lemma wf_emit_loop event args l n i w :
  wf w → wf (emit_loop code event args l n i w).2.
Proof.
  revert i w. induction n as [|n IH]; intros i w Hwf; [done|].
  cbn [emit_loop]. unfold try_catch. run.
  pose proof (wf_fn_apply (default VUndefined (contents w l !! i)) args w Hwf) as Ha.
  destruct (fn_apply code _ args w) as [[v|e] w']; simpl in *.
  - by apply IH.
  - apply IH. revert Ha. by apply wf_same_store.
Qed.

Lemma wf_emit event args w : wf w → wf (emit code event args w).2.
Proof.
  intros Hwf. unfold emit. run.
  destruct (events w !! event) as [l|]; [|done].
  case_bool_decide; [done|].
  pose proof (wf_emit_loop event args l (length (contents w l)) 0 w Hwf) as Ha.
  destruct (emit_loop code _ _ _ _ _ w) as [[v|e] w']; done.
Qed.

Lemma wf_run_call c w : wf w → wf (run_call code c w).2.
Proof.
  destruct c; simpl;
    auto using wf_on, wf_off, wf_emit, wf_removeAllListeners.
Qed.

Lemma reachable_wf w : reachable code w → wf w.
Proof.
  induction 1; [apply wf_new_emitter | by apply wf_run_call].
Qed.

End EmitterFacts.

(** ** The console and the trace of calls *)

Lemma same_observed_refl w : same_observed w w.
Proof. done. Qed.

Lemma same_observed_trans w1 w2 w3 :
  same_observed w1 w2 → same_observed w2 w3 → same_observed w1 w3.
Proof. intros [H1 H2] [H3 H4]. split; congruence. Qed.

Lemma same_observed_on event listener w :
  same_observed w (on event listener w).2.
Proof.
  destruct (is_function listener) eqn:Hf.
  2: { by rewrite on_not_function. }
  destruct (events w !! event) as [l|] eqn:Hl.
  - rewrite (on_known _ _ _ l) by done. simpl.
    by destruct (includes (contents w l) listener).
  - by rewrite on_unknown.
Qed.

Lemma same_observed_off event listener w :
  same_observed w (off event listener w).2.
Proof.
  destruct (off_cases event listener w)
    as [Hoff _ | l pre x post _ _ _ _ Hoff]; rewrite Hoff; simpl; [done|].
  by case_bool_decide.
Qed.

Lemma same_observed_removeAllListeners event w :
  same_observed w (removeAllListeners event w).2.
Proof.
  destruct event as [name|]; [|done].
  unfold removeAllListeners. by destruct (truthy (Some name)).
Qed.

Lemma same_observed_run_action a w : same_observed w (run_action a w).2.
Proof.
  destruct a; simpl; auto using same_observed_on, same_observed_off,
    same_observed_removeAllListeners.
Qed.

Lemma on_completion event listener w :
  (on event listener w).1 =
    if is_function listener then Normal VThis else Throw not_a_function.
Proof.
  destruct (is_function listener) eqn:Hf.
  2: { by rewrite on_not_function. }
  destruct (events w !! event) as [l|] eqn:Hl.
  - by rewrite (on_known _ _ _ l).
  - by rewrite on_unknown.
Qed.

Lemma off_completion event listener w :
  (off event listener w).1 = Normal VThis.
Proof.
  by destruct (off_cases event listener w)
    as [Hoff _ | l pre x post _ _ _ _ Hoff]; rewrite Hoff.
Qed.

Lemma removeAllListeners_completion event w :
  (removeAllListeners event w).1 = Normal VThis.
Proof.
  destruct event as [name|]; [|done].
  unfold removeAllListeners. by destruct (truthy (Some name)).
Qed.

Lemma run_actions_outcome acts w :
  (run_actions acts w).1 = actions_outcome acts ∧
  same_observed w (run_actions acts w).2.
Proof.
  revert w. induction acts as [|a acts IH]; intros w; [done|].
  cbn [run_actions]. run.
  pose proof (same_observed_run_action a w) as Hobs.
  assert (Hc : (run_action a w).1 =
    match a with
    | CallOn _ listener =>
        if is_function listener then Normal VThis else Throw not_a_function
    | _ => Normal VThis
    end).
  { destruct a; simpl; auto using on_completion, off_completion,
      removeAllListeners_completion. }
  destruct (run_action a w) as [c w']. simpl in Hc, Hobs. subst c.
  destruct (IH w') as [IH1 IH2].
  destruct a as [e listener|e listener|e]; cbn [actions_outcome].
  - destruct (is_function listener); [|done].
    split; [done|]. by eapply same_observed_trans.
  - split; [done|]. by eapply same_observed_trans.
  - split; [done|]. by eapply same_observed_trans.
Qed.

Lemma run_script_outcome s w :
  (run_script s w).1 = script_outcome s ∧
  same_observed w (run_script s w).2.
Proof.
  unfold run_script, script_outcome. run.
  destruct (run_actions_outcome (script_actions s) w) as [H1 H2].
  destruct (run_actions (script_actions s) w) as [c w']. simpl in H1, H2.
  rewrite <- H1. destruct c as [[]|e]; [|done].
  by destruct (script_end s).
Qed.

(** ** The array under iteration *)

Lemma iterating_same_store event l ls w w' :
  events w' = events w → arrays w' = arrays w →
  iterating event l ls w → iterating event l ls w'.
Proof. unfold iterating. intros -> ->. done. Qed.

Lemma iterating_start event l ls w :
  wf w → events w !! event = Some l → arrays w !! l = Some ls →
  iterating event l ls w.
Proof.
  intros [_ Hinj] Hl Hls. split.
  - intros e He. eauto.
  - exists []. by rewrite app_nil_r.
Qed.

Lemma iterating_on event l ls e listener w :
  iterating event l ls w → iterating event l ls (on e listener w).2.
Proof.
  intros [Hown [ext Hext]]. destruct (is_function listener) eqn:Hf.
  2: { rewrite on_not_function by done. split; eauto. }
  destruct (events w !! e) as [l'|] eqn:Hl'.
  - rewrite (on_known _ _ _ l') by done. simpl.
    destruct (includes (contents w l') listener); [split; eauto|].
    split; [done|]. simpl. destruct (decide (l' = l)) as [->|Hne].
    + exists (ext ++ [listener]). rewrite lookup_insert_eq.
      unfold contents. rewrite Hext. simpl. by rewrite app_assoc.
    + exists ext. by rewrite lookup_insert_ne.
  - rewrite on_unknown by done. simpl.
    set (l' := fresh (dom (arrays w))).
    assert (Hne : l' ≠ l).
    { intros Heq. assert (Hfresh : arrays w !! l' = None).
      { apply not_elem_of_dom. apply is_fresh. }
      congruence. }
    split; simpl.
    + intros e' He'. destruct (decide (e' = e)) as [->|Hne'].
      * rewrite lookup_insert_eq in He'. congruence.
      * rewrite lookup_insert_ne in He' by done. auto.
    + exists ext. by rewrite lookup_insert_ne.
Qed.

Lemma iterating_off event l ls e listener w :
  e ≠ event →
  iterating event l ls w → iterating event l ls (off e listener w).2.
Proof.
  intros Hne [Hown [ext Hext]].
  destruct (off_cases e listener w)
    as [Hoff _ | l' pre x post Hl' _ _ _ Hoff]; rewrite Hoff; simpl.
  { split; eauto. }
  assert (Hll : l' ≠ l). { intros ->. apply Hne. auto. }
  case_bool_decide; split; simpl.
  - intros e' He'. apply lookup_delete_Some in He' as [_ He']. auto.
  - exists ext. by rewrite lookup_insert_ne.
  - done.
  - exists ext. by rewrite lookup_insert_ne.
Qed.

Lemma iterating_removeAllListeners event l ls e w :
  iterating event l ls w →
  iterating event l ls (removeAllListeners e w).2.
Proof.
  intros [Hown Hext].
  assert (Hsub : ∀ m, m ⊆ events w → iterating event l ls (set_events m w)).
  { intros m Hm. split; simpl; [|done].
    intros e' He'. apply Hown. by eapply lookup_weaken. }
  destruct e as [name|].
  - destruct (decide (name = "")) as [->|Hne].
    + rewrite removeAllListeners_empty_name. apply Hsub, map_empty_subseteq.
    + rewrite removeAllListeners_named by done. apply Hsub, delete_subseteq.
  - rewrite removeAllListeners_omitted. apply Hsub, map_empty_subseteq.
Qed.

Lemma iterating_run_actions event l ls acts w :
  (∀ a, a ∈ acts → unregisters event a = false) →
  iterating event l ls w → iterating event l ls (run_actions acts w).2.
Proof.
  revert w. induction acts as [|a acts IH]; intros w Hq Hit; [done|].
  cbn [run_actions]. run.
  assert (Ha : iterating event l ls (run_action a w).2).
  { assert (Hu : unregisters event a = false).
    { apply Hq, elem_of_cons. auto. }
    destruct a as [e v|e v|e]; simpl.
    - by apply iterating_on.
    - apply iterating_off; [|done]. simpl in Hu.
      by apply bool_decide_eq_false in Hu.
    - by apply iterating_removeAllListeners. }
  destruct (run_action a w) as [[v|e] w']; simpl in *; [|done].
  apply IH; [|done]. intros a' Ha'. apply Hq, elem_of_cons. auto.
Qed.

Lemma iterating_run_script event l ls s w :
  (∀ a, a ∈ script_actions s → unregisters event a = false) →
  iterating event l ls w → iterating event l ls (run_script s w).2.
Proof.
  intros Hq Hit. unfold run_script. run.
  pose proof (iterating_run_actions event l ls _ w Hq Hit) as Ha.
  destruct (run_actions (script_actions s) w) as [[v|e] w']; simpl in *; [|done].
  by destruct (script_end s).
Qed.

(** ** One dispatch, when no listener unregisters from the event *)

Lemma listeners_of_Some w event ls :
  listeners_of w event = Some ls →
  ∃ l, events w !! event = Some l ∧ arrays w !! l = Some ls ∧
       contents w l = ls.
Proof.
  unfold listeners_of. intros H.
  destruct (events w !! event) as [l|]; [|done]. simpl in H.
  exists l. unfold contents. by rewrite H.
Qed.

Section QuietDispatch.

Variable code : nat → list value → script.

Lemma fn_apply_function f args w :
  fn_apply code (VFunction f) args w =
    (script_outcome (code f args),
     (fn_apply code (VFunction f) args w).2) ∧
  calls (fn_apply code (VFunction f) args w).2 =
    calls w ++ [(VFunction f, args)] ∧
  console (fn_apply code (VFunction f) args w).2 = console w.
Proof.
  unfold fn_apply. run.
  match goal with |- context [run_script ?s ?w1] =>
    destruct (run_script_outcome s w1) as [H1 [H2 H3]];
    destruct (run_script s w1) as [c w2] end.
  simpl in *. subst c. by destruct (script_outcome (code f args)).
Qed.

Lemma iterating_fn_apply event l ls f args w :
  (∀ a, a ∈ script_actions (code f args) → unregisters event a = false) →
  iterating event l ls w →
  iterating event l ls (fn_apply code (VFunction f) args w).2.
Proof.
  intros Hq Hit. unfold fn_apply. run.
  match goal with |- context [run_script ?s ?w1] =>
    pose proof (iterating_run_script event l ls s w1 Hq) as Hs;
    destruct (run_script s w1) as [c w2] end.
  simpl in *. destruct c; simpl; apply Hs; revert Hit;
    by apply iterating_same_store.
Qed.

Lemma quiet_elem event args ls f a :
  quiet code event args ls → VFunction f ∈ ls →
  a ∈ script_actions (code f args) → unregisters event a = false.
Proof.
  intros Hq Hf Ha. unfold quiet in Hq.
  rewrite Forall_forall in Hq. specialize (Hq _ Hf). simpl in Hq.
  rewrite Forall_forall in Hq. auto.
Qed.

Lemma emit_loop_S event args l n i w :
  emit_loop code event args l (S n) i w =
    match
      try_catch (x ← array_get l i; fn_apply code x args ;; mret tt)
        (λ error, console_error event error) w
    with
    | (Normal _, w') => emit_loop code event args l n (S i) w'
    | (Throw e, w') => (Throw e, w')
    end.
Proof. reflexivity. Qed.

Lemma emit_step_quiet event args l ls i f w :
  ls !! i = Some (VFunction f) →
  (∀ a, a ∈ script_actions (code f args) → unregisters event a = false) →
  iterating event l ls w →
  ∃ w',
    try_catch (x ← array_get l i; fn_apply code x args ;; mret tt)
      (λ error, console_error event error) w = (Normal tt, w') ∧
    iterating event l ls w' ∧
    calls w' = calls w ++ [(VFunction f, args)] ∧
    console w' = console w ++ omap (report code event args) [VFunction f].
Proof.
  intros Hi Hq Hit.
  assert (Hget : default VUndefined (contents w l !! i) = VFunction f).
  { destruct Hit as [_ [ext Hext]]. unfold contents. rewrite Hext. simpl.
    rewrite lookup_app_l by (by eapply lookup_lt_Some). by rewrite Hi. }
  unfold try_catch. run. rewrite Hget.
  destruct (fn_apply_function f args w) as (Hr & Hcalls & Hconsole).
  pose proof (iterating_fn_apply event l ls f args w Hq Hit) as Hit'.
  rewrite Hr. cbn [omap list_omap]. unfold report, apply_outcome.
  set (w1 := (fn_apply code (VFunction f) args w).2) in *.
  destruct (script_outcome (code f args)) as [v|e]; eexists;
    (split; [reflexivity|]); cbn [calls console].
  - rewrite app_nil_r. done.
  - rewrite Hcalls, Hconsole. split; [|done].
    revert Hit'. by apply iterating_same_store.
Qed.

Lemma emit_loop_quiet event args l ls n i w :
  Forall (λ v, is_function v = true) ls →
  quiet code event args ls →
  i + n = length ls →
  iterating event l ls w →
  ∃ w',
    emit_loop code event args l n i w = (Normal tt, w') ∧
    iterating event l ls w' ∧
    calls w' = calls w ++ ((λ v, (v, args)) <$> drop i ls) ∧
    console w' = console w ++ omap (report code event args) (drop i ls).
Proof.
  intros Hfn Hq. revert i w. induction n as [|n IH]; intros i w Hlen Hit.
  - exists w. rewrite drop_ge by lia. simpl. by rewrite !app_nil_r.
  - destruct (lookup_lt_is_Some_2 ls i) as [v Hv]; [lia|].
    assert (Hf : is_function v = true).
    { eapply Forall_lookup_1 in Hfn; eauto. }
    destruct v as [| | | | | |f| | |]; try discriminate.
    destruct (emit_step_quiet event args l ls i f w Hv) as (w1 & Hstep & Hit1 & Hc1 & Hl1);
      [|done|].
    { intros a Ha. eapply quiet_elem; eauto using list_elem_of_lookup_2. }
    destruct (IH (S i) w1) as (w2 & Hloop & Hit2 & Hc2 & Hl2); [lia|done|].
    exists w2. rewrite emit_loop_S, Hstep, Hloop.
    split; [done|]. split; [done|].
    rewrite (drop_S ls (VFunction f) i) by done.
    rewrite Hc2, Hc1, Hl2, Hl1. rewrite fmap_cons, <- !app_assoc.
    split; [done|]. f_equal. cbn [omap list_omap].
    by destruct (report code event args (VFunction f)).
Qed.

Lemma fn_apply_outcome x args w :
  ∃ w',
    fn_apply code x args w = (apply_outcome code x args, w') ∧
    calls w' = calls w ++ ((λ v, (v, args)) <$> filter (λ v, is_function v = true) [x]) ∧
    console w' = console w.
Proof.
  destruct x as [| | | | | |f| | |];
    try (exists w; simpl; by rewrite app_nil_r).
  destruct (fn_apply_function f args w) as (Hr & Hcalls & Hconsole).
  eexists. split; [exact Hr|]. done.
Qed.

Lemma emit_step_visits event args l i w :
  ∃ w',
    try_catch (x ← array_get l i; fn_apply code x args ;; mret tt)
      (λ error, console_error event error) w = (Normal tt, w') ∧
    calls w' =
      calls w ++ ((λ v, (v, args)) <$>
        filter (λ v, is_function v = true)
          [default VUndefined (contents w l !! i)]) ∧
    console w' =
      console w ++
      omap (report code event args) [default VUndefined (contents w l !! i)].
Proof.
  unfold try_catch. run.
  set (x := default VUndefined (contents w l !! i)).
  destruct (fn_apply_outcome x args w) as (w1 & Hr & Hc1 & Hl1). rewrite Hr.
  cbn [omap list_omap]. unfold report.
  destruct (apply_outcome code x args) as [v|e]; eexists;
    (split; [reflexivity|]); cbn [calls console].
  - by rewrite app_nil_r.
  - by rewrite Hl1.
Qed.

Lemma emit_loop_visits event args l n i w :
  ∃ visited w',
    emit_loop code event args l n i w = (Normal tt, w') ∧
    length visited = n ∧
    calls w' =
      calls w ++ ((λ v, (v, args)) <$> filter (λ v, is_function v = true) visited) ∧
    console w' = console w ++ omap (report code event args) visited.
Proof.
  revert i w. induction n as [|n IH]; intros i w.
  { exists [], w. simpl. by rewrite !app_nil_r. }
  destruct (emit_step_visits event args l i w) as (w1 & Hstep & Hc1 & Hl1).
  destruct (IH (S i) w1) as (visited & w2 & Hloop & Hlen & Hc2 & Hl2).
  exists (default VUndefined (contents w l !! i) :: visited), w2.
  rewrite emit_loop_S, Hstep, Hloop. split; [done|].
  split; [simpl; lia|].
  rewrite Hc2, Hc1, Hl2, Hl1, <- !app_assoc. split; f_equal.
  - rewrite <- fmap_app. f_equal.
    symmetry. apply (filter_app _ [_] visited).
  - cbn [omap list_omap].
    by destruct (report code event args (default VUndefined (contents w l !! i))).
Qed.

Lemma emit_visits event args w :
  ∃ b visited w',
    emit code event args w = (Normal (VBool b), w') ∧
    (∀ ls, listeners_of w event = Some ls → ls ≠ [] →
       b = true ∧ length visited = length ls) ∧
    calls w' =
      calls w ++ ((λ v, (v, args)) <$> filter (λ v, is_function v = true) visited) ∧
    console w' = console w ++ omap (report code event args) visited.
Proof.
  unfold emit. run. destruct (events w !! event) as [l|] eqn:Hl.
  2: { exists false, [], w. simpl. rewrite !app_nil_r.
       split; [done|]. split; [|done].
       intros ls Hls. unfold listeners_of in Hls. by rewrite Hl in Hls. }
  case_bool_decide as Hlen.
  { exists false, [], w. simpl. rewrite !app_nil_r.
    split; [done|]. split; [|done].
    intros ls Hls Hne. destruct (listeners_of_Some _ _ _ Hls) as (l' & Hl' & _ & Hc).
    assert (l' = l) as -> by congruence. rewrite Hc in Hlen. by destruct ls. }
  destruct (emit_loop_visits event args l (length (contents w l)) 0 w)
    as (visited & w' & Hloop & Hvl & Hc & Hcon).
  exists true, visited, w'. rewrite Hloop. split; [done|]. split; [|done].
  intros ls Hls _. destruct (listeners_of_Some _ _ _ Hls) as (l' & Hl' & _ & Hcl).
  assert (l' = l) as -> by congruence. split; [done|]. congruence.
Qed.

Lemma emit_quiet event args ls w :
  wf w → listeners_of w event = Some ls → quiet code event args ls →
  ∃ w',
    emit code event args w = (Normal (VBool true), w') ∧
    calls w' = calls w ++ ((λ v, (v, args)) <$> ls) ∧
    console w' = console w ++ omap (report code event args) ls.
Proof.
  intros Hwf Hls Hq. unfold listeners_of in Hls.
  destruct (events w !! event) as [l|] eqn:Hl; [|done]. simpl in Hls.
  destruct (wf_contents _ _ _ Hwf Hl) as [Hc (Hne & Hnd & Hfn)].
  assert (Hcl : contents w l = ls) by congruence. rewrite Hcl in *.
  destruct (emit_loop_quiet event args l ls (length ls) 0 w) as (w' & Hloop & _ & Hc' & Hl');
    [done|done|done|by apply iterating_start|].
  exists w'. unfold emit. run. rewrite Hl, Hcl.
  rewrite bool_decide_eq_false_2 by (by destruct ls).
  rewrite Hloop. by rewrite drop_0 in Hc', Hl'.
Qed.

Lemma emit_nothing event args w :
  listeners_of w event = None ∨ listeners_of w event = Some [] →
  emit code event args w = (Normal (VBool false), w).
Proof.
  unfold listeners_of, emit. run. intros H.
  destruct (events w !! event) as [l|] eqn:Hl; [|done]. simpl in H.
  unfold contents. by destruct H as [-> | ->].
Qed.

Lemma emit_never_throws event args w :
  ∃ b w', emit code event args w = (Normal (VBool b), w').
Proof.
  assert (Hloop : ∀ l n i w0, ∃ w1,
    emit_loop code event args l n i w0 = (Normal tt, w1)).
  { intros l n. induction n as [|n IH]; intros i w0; [by eexists|].
    cbn [emit_loop]. unfold try_catch. run.
    destruct (fn_apply code _ args w0) as [[v|e] w1].
    - destruct (IH (S i) w1) as [w2 ->]. by eexists.
    - match goal with |- context [emit_loop _ _ _ _ _ _ ?w2] =>
        destruct (IH (S i) w2) as [w3 ->] end. by eexists. }
  unfold emit. run. destruct (events w !! event) as [l|]; [|by eexists _, _].
  case_bool_decide; [by eexists _, _|].
  destruct (Hloop l (length (contents w l)) 0 w) as [w1 ->]. by eexists _, _.
Qed.

Lemma emit_true event args w ls :
  listeners_of w event = Some ls → ls ≠ [] →
  (emit code event args w).1 = Normal (VBool true).
Proof.
  intros Hls Hne.
  destruct (emit_visits event args w) as (b & visited & w' & Hemit & H & _).
  destruct (H ls Hls Hne) as [-> _]. by rewrite Hemit.
Qed.

End QuietDispatch.

(** ** Listener sequences before and after a call *)

Lemma listeners_of_None w event :
  wf w → listeners_of w event = None → events w !! event = None.
Proof.
  intros [Hseq _]. unfold listeners_of.
  destruct (events w !! event) as [l|] eqn:Hl; [|done]. simpl.
  destruct (Hseq _ _ Hl) as (ls & -> & _). done.
Qed.

Lemma listeners_of_good w event ls :
  wf w → listeners_of w event = Some ls → good_sequence ls.
Proof.
  intros Hwf H. destruct (listeners_of_Some _ _ _ H) as (l & Hl & _ & Hc).
  destruct (wf_contents _ _ _ Hwf Hl) as [_ Hgood]. congruence.
Qed.

Lemma listeners_of_set_array_other w event l ls e :
  wf w → events w !! event = Some l → e ≠ event →
  listeners_of (set_array l ls w) e = listeners_of w e.
Proof.
  intros [_ Hinj] Hl Hne. unfold listeners_of. simpl.
  destruct (events w !! e) as [l'|] eqn:Hl'; [|done]. simpl.
  rewrite lookup_insert_ne; [done|]. intros <-. apply Hne. eauto.
Qed.

Lemma off_removes w event listener pre post :
  wf w → listeners_of w event = Some (pre ++ listener :: post) →
  listener ∉ pre →
  ∃ w',
    off event listener w = (Normal VThis, w') ∧
    listeners_of w' event =
      (if bool_decide (pre ++ post = []) then None else Some (pre ++ post)) ∧
    (pre ++ post = [] → events w' !! event = None) ∧
    (∀ e, e ≠ event → listeners_of w' e = listeners_of w e).
Proof.
  intros Hwf Hls Hpre.
  destruct (listeners_of_Some _ _ _ Hls) as (l & Hl & Harr & Hc).
  destruct (listeners_of_good _ _ _ Hwf Hls) as (_ & _ & Hfn).
  assert (Hnan : listener ≠ VNaN).
  { apply is_function_not_NaN. apply Forall_app in Hfn as [_ Hfn].
    by apply Forall_cons in Hfn as [Hfn _]. }
  eexists. split.
  { eapply off_found; eauto. rewrite Hc. by apply indexOf_first. }
  case_bool_decide as Hempty.
  - split; [|split].
    + unfold listeners_of. simpl. by rewrite lookup_delete_eq.
    + intros _. simpl. by rewrite lookup_delete_eq.
    + intros e Hne.
      rewrite <- (listeners_of_set_array_other w event l [] e) by done.
      unfold listeners_of. simpl. by rewrite lookup_delete_ne.
  - split; [|split; [done|]].
    + unfold listeners_of. simpl. rewrite Hl. simpl.
      by rewrite lookup_insert_eq.
    + intros e Hne. by eapply listeners_of_set_array_other.
Qed.

Lemma off_not_listed w event listener ls :
  listeners_of w event = Some ls → listener ∉ ls →
  off event listener w = (Normal VThis, w).
Proof.
  intros Hls Hnot.
  destruct (listeners_of_Some _ _ _ Hls) as (l & Hl & _ & Hc).
  eapply off_absent; eauto. rewrite Hc. by apply indexOf_absent.
Qed.

Lemma on_listed w event listener ls :
  is_function listener = true → listeners_of w event = Some ls →
  listener ∈ ls → on event listener w = (Normal VThis, w).
Proof.
  intros Hf Hls Hin.
  destruct (listeners_of_Some _ _ _ Hls) as (l & Hl & _ & Hc).
  rewrite (on_known _ _ _ l) by done. rewrite Hc.
  apply includes_true in Hin. by rewrite Hin.
Qed.

Lemma on_registers event listener w :
  is_function listener = true →
  ∃ ls, listeners_of (on event listener w).2 event = Some ls ∧
        listener ∈ ls.
Proof.
  intros Hf. destruct (events w !! event) as [l|] eqn:Hl.
  - rewrite (on_known _ _ _ l) by done. simpl.
    destruct (includes (contents w l) listener) eqn:Hin.
    + apply includes_true in Hin. unfold listeners_of. rewrite Hl. simpl.
      unfold contents in Hin.
      destruct (arrays w !! l) as [ls|]; [by exists ls|].
      simpl in Hin. by apply elem_of_nil in Hin.
    + eexists. unfold listeners_of. simpl. rewrite Hl. simpl.
      rewrite lookup_insert_eq. split; [done|].
      apply elem_of_app. right. by apply list_elem_of_singleton.
  - rewrite on_unknown by done. simpl. exists [listener].
    unfold listeners_of. simpl. rewrite lookup_insert_eq. simpl.
    rewrite lookup_insert_eq. split; [done|].
    by apply list_elem_of_singleton.
Qed.

Lemma removeAllListeners_named_frame name w :
  name ≠ "" →
  ∃ w',
    removeAllListeners (Some name) w = (Normal VThis, w') ∧
    events w' = delete name (events w) ∧
    listeners_of w' name = None ∧
    (∀ e, e ≠ name → listeners_of w' e = listeners_of w e).
Proof.
  intros Hne. eexists. split; [by apply removeAllListeners_named|].
  unfold listeners_of. simpl. split; [done|]. split.
  - by rewrite lookup_delete_eq.
  - intros e He. by rewrite lookup_delete_ne.
Qed.

Lemma reachable_run_calls code cs w :
  reachable code w → reachable code (run_calls code cs w).
Proof.
  revert w. induction cs as [|c cs IH]; intros w Hw; [done|].
  simpl. apply IH. by constructor.
Qed.

Lemma invocations_fmap v args ls :
  NoDup ls → v ∈ ls → invocations v ((λ x, (x, args)) <$> ls) = 1.
Proof.
  unfold invocations. induction ls as [|x ls IH]; intros Hnd Hin.
  { by apply elem_of_nil in Hin. }
  apply NoDup_cons in Hnd as [Hx Hnd]. rewrite fmap_cons, filter_cons. simpl.
  apply elem_of_cons in Hin as [->|Hin].
  - rewrite decide_True by done. simpl. f_equal.
    clear IH Hnd. induction ls as [|y ls IH]; [done|].
    apply not_elem_of_cons in Hx as [Hne Hx].
    rewrite fmap_cons, filter_cons. simpl.
    rewrite decide_False by done. auto.
  - rewrite decide_False by (intros ->; done). auto.
Qed.

(** ** The scenarios of the documentation *)

(** [e.on("greet", f1); e.emit("greet", "World")]: [f1] is called once
    with ["World"], and [emit] returns [true]. *)
Example scenario_greet :
  let w := run_calls sample_code [On "greet" (VFunction 1)] new_emitter in
  let r := emit sample_code "greet" [VString "World"] w in
  r.1 = Normal (VBool true) ∧
  calls r.2 = [(VFunction 1, [VString "World"])] ∧
  console r.2 = [].
Proof. vm_compute. done. Qed.

(** [e.on("x", f1); e.on("x", f1); e.emit("x")]: [f1] is called once. *)
Example scenario_registered_twice :
  let w := run_calls sample_code
             [On "x" (VFunction 1); On "x" (VFunction 1)] new_emitter in
  listeners_of w "x" = Some [VFunction 1] ∧
  calls (emit sample_code "x" [] w).2 = [(VFunction 1, [])].
Proof. vm_compute. done. Qed.

(** [e.on("x", f1); e.off("x", f1); e.emit("x")]: [emit] returns [false]
    and [f1] is not called. *)
Example scenario_unregistered :
  let w := run_calls sample_code
             [On "x" (VFunction 1); Off "x" (VFunction 1)] new_emitter in
  events w = ∅ ∧
  emit sample_code "x" [] w = (Normal (VBool false), w) ∧
  calls w = [].
Proof. vm_compute. done. Qed.

(** A listener that throws does not keep the next one from running:
    [e.on("test", f4); e.on("test", f1); e.emit("test")]. *)
Example scenario_error_handling :
  let w := run_calls sample_code
             [On "test" (VFunction 4); On "test" (VFunction 1)] new_emitter in
  let r := emit sample_code "test" [] w in
  r.1 = Normal (VBool true) ∧
  calls r.2 = [(VFunction 4, []); (VFunction 1, [])] ∧
  console r.2 = [("test", VString "boom")].
Proof. vm_compute. done. Qed.

(** A listener that is not a function is refused. *)
Example scenario_not_a_function :
  on "x" (VObject 0) new_emitter = (Throw not_a_function, new_emitter).
Proof. reflexivity. Qed.

(** * The claims *)

(** C1, at the empty event name: [on] accepts [""] as an event name, and
    an emitter has one listener under [""] and one under ["a"];
    [removeAllListeners("")] takes the branch meant for an omitted
    argument and clears the whole map, so the listener of ["a"] is gone
    and [emit("a")] returns [false].  For every other name the key
    alone is deleted ([removeAllListeners_named_frame]). *)
Theorem removeAllListeners_empty_name_clears_every_event :
  let w := run_calls sample_code
             [On "" (VFunction 1); On "a" (VFunction 1)] new_emitter in
  let w' := (removeAllListeners (Some "") w).2 in
  listeners_of w "" = Some [VFunction 1] ∧
  listeners_of w "a" = Some [VFunction 1] ∧
  events w' = ∅ ∧
  listeners_of w' "a" = None ∧
  emit sample_code "a" [] w' = (Normal (VBool false), w').
Proof. vm_compute. done. Qed.

(** C4: in every state reached from a new emitter by calls of [on],
    [off], [emit] and [removeAllListeners], each key of the map has a
    listener sequence, which is not empty and holds no listener twice. *)
Theorem reachable_sequences_nonempty_nodup code w :
  reachable code w →
  ∀ event, event ∈ dom (events w) →
    ∃ ls, listeners_of w event = Some ls ∧ ls ≠ [] ∧ NoDup ls.
Proof.
  intros Hreach event Hin. apply reachable_wf in Hreach.
  apply elem_of_dom in Hin as [l Hl].
  destruct (wf_contents _ _ _ Hreach Hl) as [Hls (Hne & Hnd & _)].
  exists (contents w l). unfold listeners_of. rewrite Hl. done.
Qed.

Lemma reachable_sequences_nonempty_nodup_witness :
  let w := run_calls sample_code
             [On "x" (VFunction 0); On "x" (VFunction 1);
              Emit "x" []; On "y" (VFunction 4)] new_emitter in
  ∃ ls, listeners_of w "x" = Some ls ∧ ls ≠ [] ∧ NoDup ls.
Proof.
  intros w.
  apply (reachable_sequences_nonempty_nodup sample_code w).
  - apply reachable_run_calls, reachable_new.
  - apply elem_of_dom. vm_compute. eauto.
Defined.

(** C6: [on] throws its TypeError exactly when the listener is not a
    function, and then the world is left as it was; with a function it
    completes normally and returns the emitter. *)
Theorem on_throws_iff_not_function event listener w :
  ((∃ e, (on event listener w).1 = Throw e) ↔ is_function listener = false) ∧
  (is_function listener = false →
     on event listener w = (Throw not_a_function, w)) ∧
  (is_function listener = true →
     ∃ w', on event listener w = (Normal VThis, w')).
Proof.
  pose proof (on_completion event listener w) as Hc.
  destruct (is_function listener) eqn:Hf.
  - split; [|split; [done|]].
    + rewrite Hc. split; [intros [e He]; done | done].
    + intros _. destruct (on event listener w) as [c w']. simpl in Hc.
      subst c. by exists w'.
  - split; [|split; [|done]].
    + rewrite Hc. split; [done | by exists not_a_function].
    + intros _. by apply on_not_function.
Qed.

Lemma on_throws_iff_not_function_witness :
  (is_function (VString "f") = false ∧
   on "x" (VString "f") new_emitter = (Throw not_a_function, new_emitter)) ∧
  (is_function (VFunction 1) = true ∧
   ∃ w', on "x" (VFunction 1) new_emitter = (Normal VThis, w')).
Proof.
  split; (split; [reflexivity|]).
  - apply (on_throws_iff_not_function "x" (VString "f") new_emitter).
    reflexivity.
  - apply (on_throws_iff_not_function "x" (VFunction 1) new_emitter).
    reflexivity.
Defined.

(** C8: [removeAllListeners()] empties the map, as in a new emitter,
    and after it [emit] returns [false] for every event name. *)
Theorem removeAllListeners_omitted_resets code w :
  ∃ w',
    removeAllListeners None w = (Normal VThis, w') ∧
    events w' = events new_emitter ∧
    ∀ event args, emit code event args w' = (Normal (VBool false), w').
Proof.
  eexists. split; [apply removeAllListeners_omitted|]. split; [done|].
  intros event args. apply emit_nothing. left.
  unfold listeners_of. simpl. by rewrite lookup_empty.
Qed.

(** C9: [off] never throws, whatever the listener argument is, and it
    returns the emitter; when the argument is not in the sequence of the
    event, the world is left as it was. *)
Theorem off_never_throws event listener w :
  (∃ w', off event listener w = (Normal VThis, w')) ∧
  (listeners_of w event = None ∨
   (∃ ls, listeners_of w event = Some ls ∧ listener ∉ ls) →
   off event listener w = (Normal VThis, w)).
Proof.
  split.
  - pose proof (off_completion event listener w) as Hc.
    destruct (off event listener w) as [c w']. simpl in Hc. subst c.
    by exists w'.
  - intros [Hnone | (ls & Hls & Hnot)]; [|by eapply off_not_listed].
    unfold listeners_of in Hnone.
    destruct (events w !! event) as [l|] eqn:Hl; [|by apply off_unknown].
    simpl in Hnone. eapply off_absent; eauto.
    unfold contents. by rewrite Hnone.
Qed.

Lemma off_never_throws_witness :
  let w := run_calls sample_code [On "x" (VFunction 1)] new_emitter in
  off "x" (VNumber 7) w = (Normal VThis, w).
Proof.
  intros w. apply (off_never_throws "x" (VNumber 7) w).
  right. exists [VFunction 1]. split; [reflexivity|].
  intros H. apply list_elem_of_singleton in H. discriminate.
Defined.

(** C7: [off] leaves the world as it was when the event has no sequence
    or the listener is not in it; when the listener is in it, the first
    matching entry, and nothing else, is removed; when that leaves the
    sequence empty the key is deleted, so that [emit] returns [false]
    for the event; the sequences of other events stay as they were. *)
Theorem off_contract code event listener w :
  reachable code w →
  (listeners_of w event = None → off event listener w = (Normal VThis, w)) ∧
  (∀ ls, listeners_of w event = Some ls → listener ∉ ls →
     off event listener w = (Normal VThis, w)) ∧
  (∀ pre post,
     listeners_of w event = Some (pre ++ listener :: post) →
     listener ∉ pre →
     ∃ w',
       off event listener w = (Normal VThis, w') ∧
       listeners_of w' event =
         (if bool_decide (pre ++ post = []) then None
          else Some (pre ++ post)) ∧
       (pre ++ post = [] →
          events w' !! event = None ∧
          ∀ args, emit code event args w' = (Normal (VBool false), w')) ∧
       (∀ e, e ≠ event → listeners_of w' e = listeners_of w e)).
Proof.
  intros Hreach. apply reachable_wf in Hreach. split; [|split].
  - intros Hnone. apply off_unknown. by apply listeners_of_None.
  - intros ls. apply off_not_listed.
  - intros pre post Hls Hpre.
    destruct (off_removes w event listener pre post Hreach Hls Hpre)
      as (w' & Hoff & Hseq & Hkey & Hframe).
    exists w'. split; [done|]. split; [done|]. split; [|done].
    intros Hempty. split; [auto|]. intros args. apply emit_nothing. left.
    rewrite Hseq. by rewrite bool_decide_eq_true_2.
Qed.

Lemma off_contract_witness :
  let w := run_calls sample_code
             [On "x" (VFunction 1); On "y" (VFunction 4)] new_emitter in
  ∃ w',
    off "x" (VFunction 1) w = (Normal VThis, w') ∧
    listeners_of w' "x" = None ∧
    events w' !! "x" = None ∧
    emit sample_code "x" [VNumber 1] w' = (Normal (VBool false), w') ∧
    listeners_of w' "y" = listeners_of w "y".
Proof.
  intros w.
  destruct (off_contract sample_code "x" (VFunction 1) w) as (_ & _ & H).
  { apply reachable_run_calls, reachable_new. }
  destruct (H [] []) as (w' & Hoff & Hseq & Hkey & Hframe).
  { reflexivity. }
  { apply not_elem_of_nil. }
  exists w'. split; [exact Hoff|]. split; [exact Hseq|].
  destruct (Hkey eq_refl) as [Hk Hemit].
  split; [exact Hk|]. split; [apply Hemit|]. apply Hframe. discriminate.
Defined.

(** C3, at a listener that unregisters itself: the sequence of ["x"] is
    [f0; f1] and [f0] calls [off("x", f0)].  [emit("x")] calls [f0];
    the splice moves [f1] to index 0; the loop, which read the length 2
    before it started, goes on to index 1, finds [undefined] there and
    reports the TypeError of calling it.  [emit] returns [true], and
    [f1], which is still in the sequence, was never called. *)
Theorem emit_skips_bound_listener :
  let w := run_calls sample_code
             [On "x" (VFunction 0); On "x" (VFunction 1)] new_emitter in
  let r := emit sample_code "x" [] w in
  reachable sample_code w ∧
  listeners_of w "x" = Some [VFunction 0; VFunction 1] ∧
  r.1 = Normal (VBool true) ∧
  calls r.2 = calls w ++ [(VFunction 0, [])] ∧
  invocations (VFunction 1) (calls r.2) = 0 ∧
  listeners_of r.2 "x" = Some [VFunction 1] ∧
  console r.2 =
    [("x", VTypeError "Cannot read properties of undefined (reading 'apply')")].
Proof.
  split; [apply reachable_run_calls, reachable_new|]. vm_compute. done.
Qed.

(** C2, at a listener that unregisters itself and then throws: the
    sequence of ["x"] is [f2; f1].  [emit("x")] calls [f2], catches and
    reports its error and goes on; but the splice has moved [f1] to
    index 0, so the loop finds [undefined] at index 1 and reports a
    TypeError of its own: [f1], which comes after the listener that
    threw and is still in the sequence, is not called in that
    dispatch. *)
Theorem emit_skips_listener_after_throw :
  let w := run_calls sample_code
             [On "x" (VFunction 2); On "x" (VFunction 1)] new_emitter in
  let r := emit sample_code "x" [] w in
  reachable sample_code w ∧
  listeners_of w "x" = Some [VFunction 2; VFunction 1] ∧
  script_outcome (sample_code 2 []) = Throw (VString "boom") ∧
  r.1 = Normal (VBool true) ∧
  calls r.2 = calls w ++ [(VFunction 2, [])] ∧
  invocations (VFunction 1) (calls r.2) = 0 ∧
  listeners_of r.2 "x" = Some [VFunction 1] ∧
  console r.2 =
    [("x", VString "boom");
     ("x", VTypeError "Cannot read properties of undefined (reading 'apply')")].
Proof.
  split; [apply reachable_run_calls, reachable_new|]. vm_compute. done.
Qed.

(** C5, at a listener that registers itself again: [f3] calls
    [off("x", f3)] and then [on("x", f3)].  After [on("x", f3)] twice
    and [on("x", f1)] the sequence is [f3; f1], the second registration
    having changed nothing.  [emit("x")] calls [f3], which moves itself
    behind [f1]; the loop then finds [f3] again at index 1: the listener
    registered twice is called twice in one dispatch, and [f1], still
    in the sequence, not at all. *)
Theorem emit_calls_listener_twice :
  let w := run_calls sample_code
             [On "x" (VFunction 3); On "x" (VFunction 3);
              On "x" (VFunction 1)] new_emitter in
  let r := emit sample_code "x" [] w in
  reachable sample_code w ∧
  listeners_of w "x" = Some [VFunction 3; VFunction 1] ∧
  r.1 = Normal (VBool true) ∧
  calls r.2 = calls w ++ [(VFunction 3, []); (VFunction 3, [])] ∧
  invocations (VFunction 3) (calls r.2) = 2 ∧
  invocations (VFunction 1) (calls r.2) = 0 ∧
  listeners_of r.2 "x" = Some [VFunction 1; VFunction 3].
Proof.
  split; [apply reachable_run_calls, reachable_new|]. vm_compute. done.
Qed.

(** C10, at a remaining listener that unregisters itself: with the
    sequence [f0; f1; f4] of ["x"], [off("x", f1)] leaves [f0; f4], in
    that order.  The next [emit("x")] calls [f0], which unregisters
    itself, and then finds [undefined] at index 1: the remaining
    listener [f4], still in the sequence, is not called. *)
Theorem emit_skips_remaining_listener :
  let w := run_calls sample_code
             [On "x" (VFunction 0); On "x" (VFunction 1);
              On "x" (VFunction 4)] new_emitter in
  let w' := (off "x" (VFunction 1) w).2 in
  let r := emit sample_code "x" [] w' in
  reachable sample_code w ∧
  listeners_of w' "x" = Some [VFunction 0; VFunction 4] ∧
  r.1 = Normal (VBool true) ∧
  calls r.2 = calls w' ++ [(VFunction 0, [])] ∧
  invocations (VFunction 4) (calls r.2) = 0 ∧
  listeners_of r.2 "x" = Some [VFunction 4] ∧
  console r.2 =
    [("x", VTypeError "Cannot read properties of undefined (reading 'apply')")].
Proof.
  split; [apply reachable_run_calls, reachable_new|]. vm_compute. done.
Qed.

(** * Further properties of the methods *)

(** ** The sequences after [on] and [off] *)

Lemma listeners_of_on w event listener e :
  wf w → is_function listener = true →
  listeners_of (on event listener w).2 e =
    if decide (e = event)
    then Some (registered listener (listeners_of w event))
    else listeners_of w e.
Proof.
  intros Hwf Hf. destruct (events w !! event) as [l|] eqn:Hl.
  - destruct (wf_contents _ _ _ Hwf Hl) as [Harr _].
    assert (Hls : listeners_of w event = Some (contents w l)).
    { unfold listeners_of. by rewrite Hl. }
    rewrite (on_known _ _ _ l) by done. rewrite Hls. cbn [snd registered].
    destruct (includes (contents w l) listener) eqn:Hin.
    + apply includes_true in Hin. rewrite bool_decide_eq_true_2 by done.
      destruct (decide (e = event)) as [->|Hne]; done.
    + apply includes_false in Hin. rewrite bool_decide_eq_false_2 by done.
      destruct (decide (e = event)) as [->|Hne].
      * unfold listeners_of. simpl. rewrite Hl. simpl.
        by rewrite lookup_insert_eq.
      * by eapply listeners_of_set_array_other.
  - assert (Hls : listeners_of w event = None).
    { unfold listeners_of. by rewrite Hl. }
    rewrite on_unknown by done. rewrite Hls. cbn [snd registered].
    set (l := fresh (dom (arrays w))).
    destruct (decide (e = event)) as [->|Hne]; unfold listeners_of; simpl.
    + rewrite lookup_insert_eq. simpl. by rewrite lookup_insert_eq.
    + rewrite lookup_insert_ne by done.
      destruct (events w !! e) as [l'|] eqn:Hl'; [|done]. simpl.
      rewrite lookup_insert_ne; [done|]. intros Heq.
      destruct Hwf as [Hseq _]. destruct (Hseq _ _ Hl') as (ls & Harr & _).
      assert (Hfresh : arrays w !! l = None).
      { apply not_elem_of_dom. apply is_fresh. }
      congruence.
Qed.

Lemma listeners_of_off_other w event listener e :
  wf w → e ≠ event →
  listeners_of (off event listener w).2 e = listeners_of w e.
Proof.
  intros Hwf Hne. destruct (off_cases event listener w)
    as [Hoff _ | l pre x post Hl Hc _ _ Hoff]; rewrite Hoff; simpl; [done|].
  case_bool_decide.
  - rewrite <- (listeners_of_set_array_other w event l [] e) by done.
    unfold listeners_of. simpl. by rewrite lookup_delete_ne.
  - by eapply listeners_of_set_array_other.
Qed.

Lemma off_takes_out w event listener ls :
  wf w → listeners_of (off event listener w).2 event = Some ls →
  listener ∉ ls.
Proof.
  intros Hwf. destruct (off_cases event listener w)
    as [Hoff Hidx | l pre x post Hl Hc Hx Hpre Hoff].
  - rewrite Hoff. simpl. intros Hls Hin.
    destruct (listeners_of_Some _ _ _ Hls) as (l & Hl & _ & Hc).
    destruct (listeners_of_good _ _ _ Hwf Hls) as (_ & _ & Hfn).
    apply list_elem_of_split_l in Hin as (pre & post & -> & Hpre).
    specialize (Hidx l Hl). rewrite Hc in Hidx.
    rewrite indexOf_first in Hidx; [lia| |done].
    apply is_function_not_NaN. apply Forall_app in Hfn as [_ Hfn].
    by apply Forall_cons in Hfn as [Hfn _].
  - apply strict_equals_true in Hx. subst x.
    assert (Hls : listeners_of w event = Some (pre ++ listener :: post)).
    { destruct (wf_contents _ _ _ Hwf Hl) as [Harr _].
      unfold listeners_of. rewrite Hl. simpl. congruence. }
    destruct (listeners_of_good _ _ _ Hwf Hls) as (_ & Hnd & _).
    apply NoDup_app in Hnd as (_ & Hdisj & Hnd).
    apply NoDup_cons in Hnd as [Hpost _].
    assert (Hnotpre : listener ∉ pre).
    { intros Hin. apply (Hdisj _ Hin). apply elem_of_cons. auto. }
    destruct (off_removes w event listener pre post Hwf Hls Hnotpre)
      as (w' & Hoff' & Hseq & _).
    rewrite Hoff'. simpl. rewrite Hseq. case_bool_decide; [done|].
    intros [= <-]. apply not_elem_of_app. done.
Qed.

(** [new EventEmitter()]: the map of a new emitter is empty, so for
    every event name [emit] returns [false] and calls and reports
    nothing, and [off] and [removeAllListeners] return the emitter and
    leave it as it is. *)
Theorem new_emitter_has_no_listeners code event args listener name :
  events new_emitter = ∅ ∧
  listeners_of new_emitter event = None ∧
  emit code event args new_emitter = (Normal (VBool false), new_emitter) ∧
  off event listener new_emitter = (Normal VThis, new_emitter) ∧
  removeAllListeners name new_emitter = (Normal VThis, new_emitter).
Proof.
  split; [done|]. split; [done|]. split; [|split].
  - apply emit_nothing. by left.
  - by apply off_unknown.
  - destruct name as [name|]; [|done].
    unfold removeAllListeners. destruct (truthy (Some name)); [|done].
    run. unfold set_events. simpl. by rewrite delete_empty.
Qed.

(** [on] with a function that is not yet in the sequence of the event
    puts it at the end of that sequence, which it creates when the event
    has none; the sequences of the other events, the console and the
    trace of calls stay as they were. *)
Theorem on_appends code event listener w :
  reachable code w → is_function listener = true →
  let w' := (on event listener w).2 in
  (∀ ls, listeners_of w event = Some ls → listener ∉ ls →
     listeners_of w' event = Some (ls ++ [listener])) ∧
  (listeners_of w event = None → listeners_of w' event = Some [listener]) ∧
  (∀ e, e ≠ event → listeners_of w' e = listeners_of w e) ∧
  console w' = console w ∧ calls w' = calls w.
Proof.
  intros Hreach Hf w'. apply reachable_wf in Hreach.
  split; [|split; [|split]].
  - intros ls Hls Hnot. unfold w'. rewrite listeners_of_on by done.
    rewrite decide_True by done. rewrite Hls. simpl.
    by rewrite bool_decide_eq_false_2.
  - intros Hnone. unfold w'. rewrite listeners_of_on by done.
    rewrite decide_True by done. by rewrite Hnone.
  - intros e Hne. unfold w'. rewrite listeners_of_on by done.
    by rewrite decide_False.
  - apply same_observed_on.
Qed.

Lemma on_appends_witness :
  let w := run_calls sample_code
             [On "x" (VFunction 0); On "y" (VFunction 4)] new_emitter in
  let w' := (on "x" (VFunction 1) w).2 in
  listeners_of w' "x" = Some [VFunction 0; VFunction 1] ∧
  listeners_of w' "y" = listeners_of w "y".
Proof.
  intros w w'.
  destruct (on_appends sample_code "x" (VFunction 1) w)
    as (Happ & _ & Hframe & _).
  { apply reachable_run_calls, reachable_new. }
  { reflexivity. }
  split.
  - apply (Happ [VFunction 0]); [reflexivity|].
    intros H. apply list_elem_of_singleton in H. discriminate.
  - apply Hframe. discriminate.
Defined.

(** [on] followed by [off] of a function that was not registered for
    the event gives back the sequences of all events as they were before
    [on]; when it was the only listener, the key is gone again. *)
Theorem on_then_off_restores code event listener w :
  reachable code w → is_function listener = true →
  (listeners_of w event = None ∨
   ∃ ls, listeners_of w event = Some ls ∧ listener ∉ ls) →
  ∀ e, listeners_of (off event listener (on event listener w).2).2 e =
       listeners_of w e.
Proof.
  intros Hreach Hf Hnew e. apply reachable_wf in Hreach.
  pose proof (wf_on event listener w Hreach) as Hwf1.
  set (w1 := (on event listener w).2) in *.
  destruct (decide (e = event)) as [->|Hne].
  2: { rewrite listeners_of_off_other by done. unfold w1.
       rewrite listeners_of_on by done. by rewrite decide_False. }
  assert (H1 : ∃ pre, listeners_of w1 event = Some (pre ++ [listener]) ∧
                      (listener ∉ pre) ∧
                      listeners_of w event =
                        (if bool_decide (pre = []) then None else Some pre)).
  { unfold w1. rewrite listeners_of_on by done. rewrite decide_True by done.
    destruct Hnew as [Hnone | (ls & Hls & Hnot)].
    - exists []. rewrite Hnone. split; [done|]. split; [|done].
      apply not_elem_of_nil.
    - exists ls. rewrite Hls. simpl. rewrite bool_decide_eq_false_2 by done.
      split; [done|]. split; [done|].
      destruct (listeners_of_good _ _ _ Hreach Hls) as (Hne & _).
      by rewrite bool_decide_eq_false_2. }
  destruct H1 as (pre & Hls1 & Hnot & Hbefore).
  destruct (off_removes w1 event listener pre [] Hwf1 Hls1 Hnot)
    as (w2 & Hoff & Hseq & _).
  rewrite Hoff. simpl. rewrite Hseq, Hbefore. by rewrite app_nil_r.
Qed.

Lemma on_then_off_restores_witness :
  let w := run_calls sample_code
             [On "x" (VFunction 0); On "y" (VFunction 4)] new_emitter in
  listeners_of (off "x" (VFunction 1) (on "x" (VFunction 1) w).2).2 "x" =
    listeners_of w "x".
Proof.
  intros w. apply (on_then_off_restores sample_code "x" (VFunction 1) w).
  - apply reachable_run_calls, reachable_new.
  - reflexivity.
  - right. exists [VFunction 0]. split; [reflexivity|].
    intros H. apply list_elem_of_singleton in H. discriminate.
Defined.

(** After [off], the listener is not in the sequence of the event any
    more, so a second [off] with the same arguments leaves the world
    as it is. *)
Theorem off_twice code event listener w :
  reachable code w →
  let w1 := (off event listener w).2 in
  (∀ ls, listeners_of w1 event = Some ls → listener ∉ ls) ∧
  off event listener w1 = (Normal VThis, w1).
Proof.
  intros Hreach w1. apply reachable_wf in Hreach.
  assert (Hout : ∀ ls, listeners_of w1 event = Some ls → listener ∉ ls).
  { intros ls. by apply off_takes_out. }
  split; [done|].
  pose proof (wf_off event listener w Hreach) as Hwf1. fold w1 in Hwf1.
  destruct (listeners_of w1 event) as [ls|] eqn:Hls.
  - eapply off_not_listed; eauto.
  - apply off_unknown. by apply listeners_of_None.
Qed.

Lemma off_twice_witness :
  let w := run_calls sample_code
             [On "x" (VFunction 0); On "x" (VFunction 1)] new_emitter in
  let w1 := (off "x" (VFunction 0) w).2 in
  off "x" (VFunction 0) w1 = (Normal VThis, w1).
Proof.
  intros w w1. apply (off_twice sample_code "x" (VFunction 0) w).
  apply reachable_run_calls, reachable_new.
Defined.

(** [removeAllListeners(name)] with a name other than the empty string
    deletes the key [name] and nothing else: the event has no sequence
    afterwards and [emit] returns [false] for it, while every other
    event keeps its sequence and [emit] still returns [true] for each
    that has one. *)
Theorem removeAllListeners_named_only code name w :
  reachable code w → name ≠ "" →
  ∃ w',
    removeAllListeners (Some name) w = (Normal VThis, w') ∧
    listeners_of w' name = None ∧
    (∀ args, emit code name args w' = (Normal (VBool false), w')) ∧
    (∀ e, e ≠ name → listeners_of w' e = listeners_of w e) ∧
    (∀ e ls args, e ≠ name → listeners_of w e = Some ls →
       (emit code e args w').1 = Normal (VBool true)).
Proof.
  intros Hreach Hname. apply reachable_wf in Hreach.
  destruct (removeAllListeners_named_frame name w Hname)
    as (w' & Hrm & _ & Hseq & Hframe).
  exists w'. split; [done|]. split; [done|]. split; [|split; [done|]].
  - intros args. apply emit_nothing. by left.
  - intros e ls args Hne Hls. eapply emit_true.
    + rewrite Hframe by done. exact Hls.
    + by destruct (listeners_of_good _ _ _ Hreach Hls) as (Hnonempty & _).
Qed.

Lemma removeAllListeners_named_only_witness :
  let w := run_calls sample_code
             [On "x" (VFunction 0); On "y" (VFunction 4)] new_emitter in
  ∃ w',
    removeAllListeners (Some "x") w = (Normal VThis, w') ∧
    listeners_of w' "x" = None ∧
    listeners_of w' "y" = listeners_of w "y" ∧
    (emit sample_code "y" [] w').1 = Normal (VBool true).
Proof.
  intros w.
  destruct (removeAllListeners_named_only sample_code "x" w)
    as (w' & Hrm & Hseq & _ & Hframe & Hemit).
  { apply reachable_run_calls, reachable_new. }
  { discriminate. }
  exists w'. split; [exact Hrm|]. split; [exact Hseq|]. split.
  - apply Hframe. discriminate.
  - apply (Hemit "y" [VFunction 4] []); [discriminate | reflexivity].
Defined.

(** Registrations under two different event names do not depend on
    their order: either way every event ends with the same sequence. *)
Theorem on_commutes_across_events code e1 e2 f g w :
  reachable code w → is_function f = true → is_function g = true →
  e1 ≠ e2 →
  ∀ e, listeners_of (on e2 g (on e1 f w).2).2 e =
       listeners_of (on e1 f (on e2 g w).2).2 e.
Proof.
  intros Hreach Hf Hg Hne e. apply reachable_wf in Hreach.
  rewrite !listeners_of_on by auto using wf_on.
  repeat case_decide; subst; congruence.
Qed.

Lemma on_commutes_across_events_witness :
  let w := run_calls sample_code [On "x" (VFunction 0)] new_emitter in
  listeners_of (on "y" (VFunction 4) (on "x" (VFunction 1) w).2).2 "x" =
  listeners_of (on "x" (VFunction 1) (on "y" (VFunction 4) w).2).2 "x".
Proof.
  intros w.
  apply (on_commutes_across_events sample_code "x" "y"
           (VFunction 1) (VFunction 4) w).
  - apply reachable_run_calls, reachable_new.
  - reflexivity.
  - reflexivity.
  - discriminate.
Defined.

(** ** Invariants of the reachable states *)

(** Only [emit] calls listeners and writes on the console: [on], [off]
    and [removeAllListeners] do neither, whatever their arguments. *)
Theorem only_emit_calls_and_reports event listener name w :
  (console (on event listener w).2 = console w ∧
   calls (on event listener w).2 = calls w) ∧
  (console (off event listener w).2 = console w ∧
   calls (off event listener w).2 = calls w) ∧
  (console (removeAllListeners name w).2 = console w ∧
   calls (removeAllListeners name w).2 = calls w).
Proof.
  split; [|split].
  - apply same_observed_on.
  - apply same_observed_off.
  - apply same_observed_removeAllListeners.
Qed.

(** In every reachable state the sequences hold functions only: what
    [on] lets in stays callable until it is removed. *)
Theorem reachable_sequences_hold_functions code w event ls :
  reachable code w → listeners_of w event = Some ls →
  Forall (λ v, is_function v = true) ls.
Proof.
  intros Hreach Hls. apply reachable_wf in Hreach.
  by destruct (listeners_of_good _ _ _ Hreach Hls) as (_ & _ & Hfn).
Qed.

Lemma reachable_sequences_hold_functions_witness :
  let w := run_calls sample_code
             [On "x" (VFunction 0); On "x" (VNumber 3); On "x" (VFunction 1);
              Emit "x" []] new_emitter in
  ∃ ls, listeners_of w "x" = Some ls ∧ Forall (λ v, is_function v = true) ls.
Proof.
  intros w. exists [VFunction 1]. split; [reflexivity|].
  apply (reachable_sequences_hold_functions sample_code w "x").
  - apply reachable_run_calls, reachable_new.
  - reflexivity.
Defined.

(** In every reachable state each key of the map has an array of its
    own: two different event names never have the same array object. *)
Theorem reachable_arrays_not_shared code w e1 e2 l1 l2 :
  reachable code w → e1 ≠ e2 →
  events w !! e1 = Some l1 → events w !! e2 = Some l2 → l1 ≠ l2.
Proof.
  intros Hreach Hne H1 H2 ->. apply reachable_wf in Hreach.
  destruct Hreach as [_ Hinj]. apply Hne. eauto.
Qed.

Lemma reachable_arrays_not_shared_witness :
  let w := run_calls sample_code
             [On "x" (VFunction 1); On "y" (VFunction 1);
              RemoveAllListeners (Some "x"); On "x" (VFunction 1)]
             new_emitter in
  events w !! "x" = Some 2 ∧ events w !! "y" = Some 1 ∧ 2 ≠ 1.
Proof.
  intros w. split; [reflexivity|]. split; [reflexivity|].
  apply (reachable_arrays_not_shared sample_code w "x" "y" 2 1).
  - apply reachable_run_calls, reachable_new.
  - discriminate.
  - reflexivity.
  - reflexivity.
Defined.

Lemma elem_of_registered listener before :
  listener ∈ registered listener before.
Proof.
  destruct before as [ls|]; simpl.
  - case_bool_decide; [done|]. apply elem_of_app. right.
    by apply list_elem_of_singleton.
  - by apply list_elem_of_singleton.
Qed.

(** One function can be registered under two event names; the two
    registrations are independent, and [off] for one name leaves the
    function in the sequence of the other. *)
Theorem same_listener_under_two_events code e1 e2 f w :
  reachable code w → is_function f = true → e1 ≠ e2 →
  let w2 := (on e2 f (on e1 f w).2).2 in
  let w3 := (off e1 f w2).2 in
  (∃ ls, listeners_of w2 e1 = Some ls ∧ f ∈ ls) ∧
  (∃ ls, listeners_of w2 e2 = Some ls ∧ f ∈ ls) ∧
  (∀ ls, listeners_of w3 e1 = Some ls → f ∉ ls) ∧
  listeners_of w3 e2 = listeners_of w2 e2.
Proof.
  intros Hreach Hf Hne w2 w3. apply reachable_wf in Hreach.
  assert (Hwf2 : wf w2) by (unfold w2; auto using wf_on).
  split; [|split; [|split]].
  - unfold w2. rewrite !listeners_of_on by auto using wf_on.
    rewrite decide_False, decide_True by done.
    eexists. split; [done|]. apply elem_of_registered.
  - unfold w2. rewrite listeners_of_on by auto using wf_on.
    rewrite decide_True by done.
    eexists. split; [done|]. apply elem_of_registered.
  - intros ls. by apply off_takes_out.
  - unfold w3. by rewrite listeners_of_off_other.
Qed.

Lemma same_listener_under_two_events_witness :
  let w := run_calls sample_code [On "x" (VFunction 0)] new_emitter in
  let w2 := (on "y" (VFunction 1) (on "x" (VFunction 1) w).2).2 in
  let w3 := (off "x" (VFunction 1) w2).2 in
  listeners_of w3 "y" = listeners_of w2 "y".
Proof.
  intros w w2 w3.
  apply (same_listener_under_two_events sample_code "x" "y" (VFunction 1) w).
  - apply reachable_run_calls, reachable_new.
  - reflexivity.
  - discriminate.
Defined.

(** ** Dispatches whose listeners make no call on the emitter *)

Lemma visited_bounds code event args visited :
  length (filter (λ v, is_function v = true) visited) ≤ length visited ∧
  length (omap (report code event args) visited) ≤ length visited ∧
  length visited ≤
    length (filter (λ v, is_function v = true) visited) +
    length (omap (report code event args) visited).
Proof.
  induction visited as [|x visited (IH1 & IH2 & IH3)]; [simpl; lia|].
  rewrite filter_cons. cbn [omap list_omap].
  destruct (decide (is_function x = true)) as [Hf|Hf].
  - destruct (report code event args x); cbn [length]; lia.
  - assert (Hr : ∃ r, report code event args x = Some r).
    { destruct x; try (exfalso; by apply Hf); by eexists. }
    destruct Hr as [r ->]. cbn [length]. lia.
Qed.

Lemma emit_bounded_wf code event args w ls :
  wf w → listeners_of w event = Some ls →
  ∃ w' trace reports,
    emit code event args w = (Normal (VBool true), w') ∧
    calls w' = calls w ++ trace ∧
    console w' = console w ++ reports ∧
    length trace ≤ length ls ∧
    length reports ≤ length ls ∧
    length ls ≤ length trace + length reports.
Proof.
  intros Hwf Hls.
  destruct (listeners_of_good _ _ _ Hwf Hls) as (Hne & _).
  destruct (emit_visits code event args w)
    as (b & visited & w' & Hemit & Hlen & Hcalls & Hconsole).
  destruct (Hlen ls Hls Hne) as [-> Hvis].
  destruct (visited_bounds code event args visited) as (H1 & H2 & H3).
  eexists w', _, _. split; [done|]. split; [done|]. split; [done|].
  rewrite length_fmap. lia.
Qed.

Lemma read_range_S arr i n :
  read_range arr i (S n) =
    default VUndefined (arr !! i) :: read_range arr (S i) n.
Proof. reflexivity. Qed.

Lemma read_range_within arr i n :
  i + n ≤ length arr → read_range arr i n = take n (drop i arr).
Proof.
  revert i. induction n as [|n IH]; intros i Hlen; [done|].
  destruct (lookup_lt_is_Some_2 arr i) as [x Hx]; [lia|].
  rewrite read_range_S, Hx, IH by lia.
  by rewrite (drop_S arr x i).
Qed.

Lemma read_range_all arr : read_range arr 0 (length arr) = arr.
Proof.
  rewrite read_range_within by lia. rewrite drop_0. by apply take_ge.
Qed.

Lemma read_range_past arr i n :
  i + n = length arr →
  read_range arr i (S n) = drop i arr ++ [VUndefined].
Proof.
  intros Hlen. unfold read_range. rewrite seq_S, fmap_app.
  fold (read_range arr i n). rewrite read_range_within by lia.
  rewrite take_ge by (rewrite length_drop; lia).
  simpl. rewrite lookup_ge_None_2 by lia. done.
Qed.

Section InertDispatch.

Variable code : nat → list value → script.

Lemma run_script_inert s w :
  script_actions s = [] → run_script s w = (script_end s, w).
Proof.
  intros H. unfold run_script. rewrite H. run. simpl.
  by destruct (script_end s).
Qed.

Lemma fn_apply_inert x args w :
  inert_listener code args x →
  ∃ w',
    fn_apply code x args w = (apply_outcome code x args, w') ∧
    events w' = events w ∧ arrays w' = arrays w ∧
    calls w' =
      calls w ++ ((λ v, (v, args)) <$> filter (λ v, is_function v = true) [x]) ∧
    console w' = console w.
Proof.
  intros Hin. destruct x as [| | | | | |f| | |];
    try (exists w; simpl; by rewrite app_nil_r).
  simpl in Hin. eexists. unfold fn_apply. run.
  rewrite run_script_inert by done. unfold apply_outcome, script_outcome.
  rewrite Hin. simpl. done.
Qed.

Lemma emit_loop_fixed event args l arr n i w :
  arrays w !! l = Some arr → inert code args arr →
  ∃ w',
    emit_loop code event args l n i w = (Normal tt, w') ∧
    events w' = events w ∧ arrays w' = arrays w ∧
    calls w' =
      calls w ++
      ((λ v, (v, args)) <$>
       filter (λ v, is_function v = true) (read_range arr i n)) ∧
    console w' =
      console w ++ omap (report code event args) (read_range arr i n).
Proof.
  intros Harr Hin. revert i w Harr.
  induction n as [|n IH]; intros i w Harr.
  { exists w. simpl. by rewrite !app_nil_r. }
  set (x := default VUndefined (arr !! i)).
  assert (Hx : inert_listener code args x).
  { unfold x. destruct (arr !! i) as [y|] eqn:Hy; [|done]. simpl.
    unfold inert in Hin. rewrite Forall_forall in Hin.
    apply Hin. by eapply list_elem_of_lookup_2. }
  destruct (fn_apply_inert x args w Hx) as (w1 & Hap & He1 & Ha1 & Hc1 & Hl1).
  assert (Hstep : ∃ w2,
    try_catch (y ← array_get l i; fn_apply code y args ;; mret tt)
      (λ error, console_error event error) w = (Normal tt, w2) ∧
    events w2 = events w ∧ arrays w2 = arrays w ∧
    calls w2 = calls w1 ∧
    console w2 = console w1 ++ omap (report code event args) [x]).
  { unfold try_catch. run. unfold contents. rewrite Harr. simpl.
    fold x. rewrite Hap. cbn [omap list_omap]. unfold report.
    destruct (apply_outcome code x args) as [v|e]; eexists;
      (split; [reflexivity|]); cbn [events arrays calls console].
    - by rewrite app_nil_r.
    - done. }
  destruct Hstep as (w2 & Hstep & He2 & Ha2 & Hc2 & Hl2).
  destruct (IH (S i) w2) as (w3 & Hloop & He3 & Ha3 & Hc3 & Hl3).
  { by rewrite Ha2. }
  exists w3. rewrite emit_loop_S, Hstep, Hloop. split; [done|].
  split; [congruence|]. split; [congruence|].
  rewrite read_range_S. fold x.
  rewrite Hc3, Hc2, Hc1, Hl3, Hl2, Hl1, <- !app_assoc. split; f_equal.
  - rewrite <- fmap_app. f_equal. symmetry.
    apply (filter_app _ [_] (read_range arr (S i) n)).
  - cbn [omap list_omap]. by destruct (report code event args x).
Qed.

End InertDispatch.

(** [emit] itself changes neither the map nor any array: when the
    listeners of the sequence make no call on the emitter, the sequences
    of all events are after the dispatch what they were before it, while
    every listener was called and every error reported. *)
Theorem emit_keeps_the_map code event args w ls :
  reachable code w → listeners_of w event = Some ls →
  inert code args ls →
  ∃ w',
    emit code event args w = (Normal (VBool true), w') ∧
    events w' = events w ∧ arrays w' = arrays w ∧
    (∀ e, listeners_of w' e = listeners_of w e) ∧
    calls w' = calls w ++ ((λ v, (v, args)) <$> ls) ∧
    console w' = console w ++ omap (report code event args) ls.
Proof.
  intros Hreach Hls Hin. apply reachable_wf in Hreach.
  destruct (listeners_of_Some _ _ _ Hls) as (l & Hl & Harr & Hc).
  destruct (listeners_of_good _ _ _ Hreach Hls) as (Hne & _ & Hfn).
  destruct (emit_loop_fixed code event args l ls (length ls) 0 w Harr Hin)
    as (w' & Hloop & He & Ha & Hcalls & Hconsole).
  rewrite read_range_all in Hcalls, Hconsole.
  exists w'. unfold emit. run. rewrite Hl, Hc.
  rewrite bool_decide_eq_false_2 by (by destruct ls). rewrite Hloop.
  split; [done|]. split; [done|]. split; [done|]. split; [|split; [|done]].
  - intros e. unfold listeners_of. by rewrite He, Ha.
  - rewrite Hcalls. do 2 f_equal. clear -Hfn.
    induction Hfn as [|x ls Hx _ IH]; [done|].
    rewrite filter_cons, decide_True by done. by rewrite IH.
Qed.

Lemma emit_keeps_the_map_witness :
  let w := run_calls sample_code
             [On "x" (VFunction 4); On "x" (VFunction 1)] new_emitter in
  ∃ w',
    emit sample_code "x" [] w = (Normal (VBool true), w') ∧
    events w' = events w ∧ arrays w' = arrays w.
Proof.
  intros w.
  destruct (emit_keeps_the_map sample_code "x" [] w [VFunction 4; VFunction 1])
    as (w' & Hemit & He & Ha & _).
  { apply reachable_run_calls, reachable_new. }
  { reflexivity. }
  { repeat constructor. }
  exists w'. split; [exact Hemit|]. split; [exact He | exact Ha].
Defined.

Lemma filter_functions (ls : list value) :
  Forall (λ v, is_function v = true) ls →
  filter (λ v, is_function v = true) ls = ls.
Proof.
  induction 1 as [|x ls Hx _ IH]; [done|].
  rewrite filter_cons, decide_True by done. by rewrite IH.
Qed.

Lemma self_removing_script (code : nat → list value → script)
    event args f w l rest :
  script_actions (code f args) = [CallOff event (VFunction f)] →
  events w !! event = Some l → arrays w !! l = Some (VFunction f :: rest) →
  rest ≠ [] →
  run_script (code f args) w =
    (script_outcome (code f args), set_array l rest w).
Proof.
  intros Hacts Hl Harr Hne.
  assert (Hoff : off event (VFunction f) w = (Normal VThis, set_array l rest w)).
  { rewrite (off_found event (VFunction f) w l [] (VFunction f) rest).
    - simpl. by rewrite bool_decide_eq_false_2.
    - done.
    - unfold contents. by rewrite Harr.
    - unfold contents. rewrite Harr. simpl.
      apply (indexOf_first [] (VFunction f) rest); [done|].
      apply not_elem_of_nil. }
  unfold run_script, script_outcome. rewrite Hacts.
  cbn [run_actions run_action actions_outcome]. run. rewrite Hoff.
  by destruct (script_end (code f args)).
Qed.

(** A listener that unregisters itself when called makes the same
    dispatch pass over the listener registered right after it.  With the
    sequence [f; rest], where [f] does nothing but [off(event, f)] and
    the listeners of [rest] make no call on the emitter: [emit] calls
    [f], then the listeners of [rest] but the first, then reads past the
    end of the array and reports the TypeError of calling [undefined];
    the sequence it leaves is [rest]. *)
Theorem self_removing_listener_skips_next code event args w f rest :
  reachable code w →
  listeners_of w event = Some (VFunction f :: rest) → rest ≠ [] →
  script_actions (code f args) = [CallOff event (VFunction f)] →
  inert code args rest →
  ∃ w',
    emit code event args w = (Normal (VBool true), w') ∧
    listeners_of w' event = Some rest ∧
    calls w' =
      calls w ++ (VFunction f, args) :: ((λ v, (v, args)) <$> drop 1 rest) ∧
    console w' =
      console w ++
      omap (report code event args) (VFunction f :: drop 1 rest) ++
      [(event,
        VTypeError "Cannot read properties of undefined (reading 'apply')")].
Proof.
  intros Hreach Hls Hne Hacts Hin. apply reachable_wf in Hreach.
  destruct (listeners_of_Some _ _ _ Hls) as (l & Hl & Harr & Hc).
  destruct (listeners_of_good _ _ _ Hreach Hls) as (_ & _ & Hfn).
  apply Forall_cons in Hfn as [_ Hfn].
  set (w0 := {| events := events w; arrays := arrays w; console := console w;
                calls := calls w ++ [(VFunction f, args)] |}).
  set (w1 := set_array l rest w0).
  assert (Hstep : ∃ w2,
    try_catch (y ← array_get l 0; fn_apply code y args ;; mret tt)
      (λ error, console_error event error) w = (Normal tt, w2) ∧
    events w2 = events w ∧ arrays w2 = <[l := rest]> (arrays w) ∧
    calls w2 = calls w ++ [(VFunction f, args)] ∧
    console w2 = console w ++ omap (report code event args) [VFunction f]).
  { assert (Hget : default VUndefined (contents w l !! 0) = VFunction f).
    { by rewrite Hc. }
    assert (Hap : fn_apply code (VFunction f) args w =
                  (script_outcome (code f args), w1)).
    { unfold w1.
      rewrite <- (self_removing_script code event args f w0 l rest) by done.
      reflexivity. }
    unfold try_catch. run. rewrite Hget, Hap. cbn [omap list_omap]. unfold report, apply_outcome.
    destruct (script_outcome (code f args)) as [v|e]; eexists;
      (split; [reflexivity|]); cbn [events arrays calls console];
      [by rewrite app_nil_r | done]. }
  destruct Hstep as (w2 & Hstep & He2 & Ha2 & Hc2 & Hl2).
  destruct rest as [|g rest']; [done|]. clear Hne.
  destruct (emit_loop_fixed code event args l (g :: rest')
              (S (length rest')) 1 w2)
    as (w3 & Hloop & He3 & Ha3 & Hc3 & Hl3); [|done|].
  { rewrite Ha2. by rewrite lookup_insert_eq. }
  rewrite (read_range_past (g :: rest') 1 (length rest')) in Hc3, Hl3
    by (simpl; lia).
  exists w3. unfold emit. run. rewrite Hl, Hc.
  rewrite bool_decide_eq_false_2 by done.
  change (length (VFunction f :: g :: rest')) with (S (S (length rest'))).
  rewrite emit_loop_S, Hstep, Hloop. split; [done|]. split; [|split].
  - unfold listeners_of. rewrite He3, He2, Hl. simpl.
    rewrite Ha3, Ha2. by rewrite lookup_insert_eq.
  - rewrite Hc3, Hc2, <- app_assoc. f_equal. simpl. f_equal.
    rewrite filter_app, drop_0. simpl. rewrite app_nil_r.
    apply Forall_cons in Hfn as [_ Hfn]. by rewrite filter_functions.
  - rewrite Hl3, Hl2, <- app_assoc. f_equal.
    rewrite omap_app. cbn [omap list_omap]. simpl drop.
    by destruct (report code event args (VFunction f)).
Qed.

Lemma self_removing_listener_skips_next_witness :
  let w := run_calls sample_code
             [On "x" (VFunction 0); On "x" (VFunction 4);
              On "x" (VFunction 1)] new_emitter in
  ∃ w',
    emit sample_code "x" [] w = (Normal (VBool true), w') ∧
    listeners_of w' "x" = Some [VFunction 4; VFunction 1] ∧
    calls w' = calls w ++ [(VFunction 0, []); (VFunction 1, [])].
Proof.
  intros w.
  destruct (self_removing_listener_skips_next sample_code "x" [] w 0
              [VFunction 4; VFunction 1])
    as (w' & Hemit & Hseq & Hcalls & _).
  { apply reachable_run_calls, reachable_new. }
  { reflexivity. }
  { discriminate. }
  { reflexivity. }
  { repeat constructor. }
  exists w'. split; [exact Hemit|]. split; [exact Hseq | exact Hcalls].
Defined.

(** ** Listeners registered during a dispatch *)

Lemma events_on_keeps event l e listener w :
  events w !! event = Some l → events (on e listener w).2 !! event = Some l.
Proof.
  intros Hl. destruct (is_function listener) eqn:Hf.
  2: { by rewrite on_not_function. }
  destruct (events w !! e) as [l'|] eqn:Hl'.
  - rewrite (on_known _ _ _ l') by done. simpl.
    by destruct (includes (contents w l') listener).
  - rewrite on_unknown by done. simpl.
    rewrite lookup_insert_ne; [done|]. intros ->. congruence.
Qed.

Lemma events_off_other event e listener w :
  e ≠ event →
  events (off e listener w).2 !! event = events w !! event.
Proof.
  intros Hne. destruct (off_cases e listener w)
    as [Hoff _ | l' pre x post _ _ _ _ Hoff]; rewrite Hoff; simpl; [done|].
  case_bool_decide; simpl; [|done]. by rewrite lookup_delete_ne.
Qed.

Lemma on_puts_in event l g w :
  is_function g = true → events w !! event = Some l →
  g ∈ contents (on event g w).2 l.
Proof.
  intros Hg Hl. rewrite (on_known _ _ _ l) by done. simpl.
  destruct (includes (contents w l) g) eqn:Hin.
  - by apply includes_true.
  - rewrite contents_set_array_eq. apply elem_of_app. right.
    by apply list_elem_of_singleton.
Qed.

Lemma iterating_contents event l ls w :
  iterating event l ls w → iterating event l (contents w l) w.
Proof.
  intros [Hown [ext Hext]]. split; [done|]. exists [].
  unfold contents. rewrite Hext. simpl. by rewrite app_nil_r.
Qed.

Lemma iterating_elem_of event l ls w x :
  iterating event l ls w → x ∈ ls → x ∈ contents w l.
Proof.
  intros [_ [ext Hext]] Hx. unfold contents. rewrite Hext. simpl.
  apply elem_of_app. by left.
Qed.

Lemma registers_cons event g a acts :
  registers event g (a :: acts) →
  (a = CallOn event g ∧ is_function g = true) ∨
  (actions_outcome [a] = Normal tt ∧ registers event g acts).
Proof.
  intros (before & rest & Heq & Hout & Hg).
  destruct before as [|b before]; simpl in Heq.
  - left. by injection Heq as -> _.
  - right. injection Heq as <- ->. split.
    + destruct a as [e v|e v|e]; simpl in *; [|done|done].
      by destruct (is_function v).
    + exists before, rest. split; [done|]. split; [|done].
      destruct a as [e v|e v|e]; simpl in Hout; [|done|done].
      by destruct (is_function v).
Qed.

Lemma keeping_run_actions event l acts w :
  Forall (λ a, detaches event a = false) acts →
  events w !! event = Some l →
  events (run_actions acts w).2 !! event = Some l ∧
  (∀ ls, iterating event l ls w →
     iterating event l ls (run_actions acts w).2) ∧
  (∀ ls g, iterating event l ls w → registers event g acts →
     g ∈ contents (run_actions acts w).2 l).
Proof.
  intros Hkeep. revert w. induction Hkeep as [|a acts Ha Hkeep IH]; intros w Hl.
  { split; [done|]. split; [done|].
    intros ls g _ (before & rest & Heq & _). by destruct before. }
  assert (H1 : events (run_action a w).2 !! event = Some l ∧
               ∀ ls, iterating event l ls w →
                     iterating event l ls (run_action a w).2).
  { destruct a as [e v|e v|e]; simpl in *; [| |done].
    - split; [by apply events_on_keeps|]. intros ls. apply iterating_on.
    - apply bool_decide_eq_false in Ha. split.
      + by rewrite events_off_other.
      + intros ls. by apply iterating_off. }
  destruct H1 as [Hl1 Hit1].
  assert (Hc : (run_action a w).1 = Normal VThis ∨
               ((run_action a w).1 = Throw not_a_function ∧
                actions_outcome [a] = Throw not_a_function)).
  { destruct a as [e v|e v|e]; simpl.
    - rewrite on_completion. destruct (is_function v); auto.
    - left. apply off_completion.
    - left. apply removeAllListeners_completion. }
  cbn [run_actions]. run.
  destruct (run_action a w) as [c w1] eqn:Hrun. simpl in Hl1, Hit1, Hc.
  destruct Hc as [-> | [-> Hthrow]].
  - destruct (IH w1 Hl1) as (Hl2 & Hit2 & Hreg2).
    split; [done|]. split; [auto|].
    intros ls g Hit Hreg.
    apply registers_cons in Hreg as [[-> Hg] | [_ Hreg]].
    + assert (Hin : g ∈ contents w1 l).
      { replace w1 with (run_action (CallOn event g) w).2 by (by rewrite Hrun).
        by apply on_puts_in. }
      eapply iterating_elem_of; [|exact Hin].
      apply Hit2. eapply iterating_contents. by apply Hit1.
    + eapply Hreg2; eauto.
  - simpl. split; [done|]. split; [done|].
    intros ls g Hit Hreg.
    apply registers_cons in Hreg as [[-> Hg] | [Hout _]].
    + simpl in Hthrow. by rewrite Hg in Hthrow.
    + simpl in Hout. congruence.
Qed.

Lemma run_script_world s w : (run_script s w).2 = (run_actions (script_actions s) w).2.
Proof.
  unfold run_script. run.
  destruct (run_actions (script_actions s) w) as [[[]|e] w']; [|done].
  by destruct (script_end s).
Qed.

Section KeepingDispatch.

Variable code : nat → list value → script.

Lemma keeping_quiet event args ls :
  keeping code event args ls → quiet code event args ls.
Proof.
  unfold keeping, quiet. intros H. eapply Forall_impl; [exact H|].
  intros v Hv. destruct v; simpl in *; try done.
  eapply Forall_impl; [exact Hv|]. intros a. by destruct a.
Qed.

Lemma emit_step_keeping event args l ls i f w :
  ls !! i = Some (VFunction f) →
  Forall (λ a, detaches event a = false) (script_actions (code f args)) →
  events w !! event = Some l → iterating event l ls w →
  ∃ w',
    try_catch (x ← array_get l i; fn_apply code x args ;; mret tt)
      (λ error, console_error event error) w = (Normal tt, w') ∧
    events w' !! event = Some l ∧
    (∀ ls0, iterating event l ls0 w → iterating event l ls0 w') ∧
    (∀ g, registers event g (script_actions (code f args)) →
       g ∈ contents w' l).
Proof.
  intros Hi Hkeep Hl Hit.
  assert (Hget : default VUndefined (contents w l !! i) = VFunction f).
  { destruct Hit as [_ [ext Hext]]. unfold contents. rewrite Hext. simpl.
    rewrite lookup_app_l by (by eapply lookup_lt_Some). by rewrite Hi. }
  set (w0 := {| events := events w; arrays := arrays w; console := console w;
                calls := calls w ++ [(VFunction f, args)] |}).
  destruct (keeping_run_actions event l _ w0 Hkeep Hl) as (Hl1 & Hit1 & Hreg1).
  rewrite <- run_script_world in Hl1, Hit1, Hreg1.
  assert (Hap : fn_apply code (VFunction f) args w = run_script (code f args) w0)
    by reflexivity.
  assert (Hto0 : ∀ ls0, iterating event l ls0 w → iterating event l ls0 w0).
  { intros ls0. by apply iterating_same_store. }
  unfold try_catch. run. rewrite Hget, Hap.
  destruct (run_script (code f args) w0) as [[v|e] w1];
    cbn [fst snd] in *; eexists; (split; [reflexivity|]).
  - split; [done|]. split.
    + intros ls0 H0. by apply Hit1, Hto0.
    + intros g Hg. apply (Hreg1 ls g); [by apply Hto0 | done].
  - split; [done|]. split.
    + intros ls0 H0.
      apply (iterating_same_store event l ls0 w1); [done|done|].
      by apply Hit1, Hto0.
    + intros g Hg. unfold contents. cbn [arrays].
      apply (Hreg1 ls g); [by apply Hto0 | done].
Qed.

Lemma emit_loop_keeping event args l ls n i w :
  Forall (λ v, is_function v = true) ls →
  keeping code event args ls →
  i + n = length ls →
  events w !! event = Some l → iterating event l ls w →
  ∃ w',
    emit_loop code event args l n i w = (Normal tt, w') ∧
    events w' !! event = Some l ∧
    (∀ ls0, iterating event l ls0 w → iterating event l ls0 w') ∧
    (∀ j f g, i ≤ j → ls !! j = Some (VFunction f) →
       registers event g (script_actions (code f args)) →
       g ∈ contents w' l).
Proof.
  intros Hfn Hkeep. revert i w.
  induction n as [|n IH]; intros i w Hlen Hl Hit.
  { exists w. split; [done|]. split; [done|]. split; [done|].
    intros j f g Hj Hlook. apply lookup_lt_Some in Hlook. lia. }
  destruct (lookup_lt_is_Some_2 ls i) as [v Hv]; [lia|].
  assert (Hf : is_function v = true).
  { eapply Forall_lookup_1 in Hfn; eauto. }
  destruct v as [| | | | | |f| | |]; try discriminate.
  assert (Hk : Forall (λ a, detaches event a = false)
                 (script_actions (code f args))).
  { pose proof Hkeep as Hk. unfold keeping in Hk.
    eapply Forall_lookup_1 in Hk; [|exact Hv]. exact Hk. }
  destruct (emit_step_keeping event args l ls i f w Hv Hk Hl Hit)
    as (w1 & Hstep & Hl1 & Hit1 & Hreg1).
  destruct (IH (S i) w1) as (w2 & Hloop & Hl2 & Hit2 & Hreg2);
    [lia|done|auto|].
  exists w2. rewrite emit_loop_S, Hstep, Hloop.
  split; [done|]. split; [done|]. split; [auto|].
  intros j f' g Hj Hlook Hreg.
  destruct (decide (j = i)) as [->|Hne].
  - assert (f' = f) as -> by congruence.
    eapply iterating_elem_of; [|by apply Hreg1].
    apply Hit2. eapply iterating_contents. by apply Hit1.
  - apply (Hreg2 j f' g); [lia|done|done].
Qed.

End KeepingDispatch.

Lemma registered_during_dispatch_wf code event args w ls :
  wf w → listeners_of w event = Some ls →
  keeping code event args ls →
  ∃ w' added,
    emit code event args w = (Normal (VBool true), w') ∧
    calls w' = calls w ++ ((λ v, (v, args)) <$> ls) ∧
    listeners_of w' event = Some (ls ++ added) ∧
    ∀ f g, VFunction f ∈ ls →
      registers event g (script_actions (code f args)) →
      g ∈ ls ++ added.
Proof.
  intros Hwf Hls Hkeep.
  destruct (listeners_of_Some _ _ _ Hls) as (l & Hl & Harr & Hc).
  destruct (listeners_of_good _ _ _ Hwf Hls) as (Hne & _ & Hfn).
  pose proof (iterating_start event l ls w Hwf Hl Harr) as Hit.
  destruct (emit_loop_keeping code event args l ls (length ls) 0 w)
    as (w' & Hloop & Hl' & Hit' & Hreg'); [done..|].
  destruct (emit_loop_quiet code event args l ls (length ls) 0 w)
    as (w'' & Hloop' & _ & Hcalls & _);
    [done|by apply keeping_quiet|done|done|].
  assert (w'' = w') as -> by congruence.
  destruct (Hit' ls Hit) as [_ [added Hadded]].
  exists w', added. unfold emit. run. rewrite Hl, Hc.
  rewrite bool_decide_eq_false_2 by (by destruct ls). rewrite Hloop.
  split; [done|]. split; [by rewrite drop_0 in Hcalls|]. split.
  - unfold listeners_of. by rewrite Hl'.
  - intros f g Hf Hreg. apply list_elem_of_lookup_1 in Hf as [j Hj].
    specialize (Hreg' j f g (Nat.le_0_l j) Hj Hreg).
    unfold contents in Hreg'. by rewrite Hadded in Hreg'.
Qed.

(** ** A new emitter *)

(** [new EventEmitter().on(event, f)]: the new emitter has no key, so
    after the first registration the event has the sequence [f] alone
    and no other event has a sequence; [emit] returns [false] for every
    other event name and leaves the emitter as it is. *)
Theorem first_registration code event listener :
  is_function listener = true →
  let w := (on event listener new_emitter).2 in
  on event listener new_emitter = (Normal VThis, w) ∧
  (∀ e, listeners_of w e =
        if decide (e = event) then Some [listener] else None) ∧
  (∀ e args, e ≠ event → emit code e args w = (Normal (VBool false), w)).
Proof.
  intros Hf w.
  assert (Hseq : ∀ e, listeners_of w e =
                      if decide (e = event) then Some [listener] else None).
  { intros e. unfold w.
    rewrite listeners_of_on by auto using wf_new_emitter.
    by destruct (decide (e = event)). }
  split; [|split; [done|]].
  - unfold w. by rewrite on_unknown.
  - intros e args Hne. apply emit_nothing. left.
    rewrite Hseq. by rewrite decide_False.
Qed.

Lemma first_registration_witness :
  let w := (on "greet" (VFunction 1) new_emitter).2 in
  listeners_of w "greet" = Some [VFunction 1] ∧
  emit sample_code "other" [] w = (Normal (VBool false), w).
Proof.
  intros w.
  destruct (first_registration sample_code "greet" (VFunction 1))
    as (_ & Hseq & Hemit); [reflexivity|].
  split.
  - apply (Hseq "greet").
  - apply Hemit. discriminate.
Defined.

Lemma single_listener_plain code event args w f :
  listeners_of w event = Some [VFunction f] →
  ∃ w',
    emit code event args w = (Normal (VBool true), w') ∧
    calls w' = calls w ++ [(VFunction f, args)] ∧
    console w' = console w ++ omap (report code event args) [VFunction f].
Proof.
  intros Hls. destruct (listeners_of_Some _ _ _ Hls) as (l & Hl & _ & Hc).
  destruct (emit_step_visits code event args l 0 w) as (w1 & Hstep & Hc1 & Hl1).
  rewrite Hc in Hc1, Hl1. simpl in Hc1, Hl1.
  exists w1. unfold emit. run. rewrite Hl, Hc.
  rewrite bool_decide_eq_false_2 by done.
  change (length [VFunction f]) with 1.
  rewrite emit_loop_S, Hstep. done.
Qed.

(** * Listeners that dispatch *)

(** ** Bodies that reach no call of [emit] *)

Lemma run_action_throws a w :
  throws_at (Plain a) = true → run_action a w = (Throw not_a_function, w).
Proof.
  destruct a as [e v|e v|e]; simpl; try discriminate.
  intros H. apply on_not_function. by destruct (is_function v).
Qed.

Lemma run_action_returns a w :
  throws_at (Plain a) = false → (run_action a w).1 = Normal VThis.
Proof.
  destruct a as [e v|e v|e]; simpl.
  - intros H. rewrite on_completion. by destruct (is_function v).
  - intros _. apply off_completion.
  - intros _. apply removeAllListeners_completion.
Qed.

Section Simulation.

Variable rcode : nat → list value → reentrant_script.
Variable nested_emit : string → list value → D value.

Lemma run_reentrant_actions_plain acts w :
  Forall (λ a, calls_emit a = false) (reached acts) →
  run_reentrant_actions nested_emit acts w =
    Some (run_actions (omap plain_action (reached acts)) w).
Proof.
  revert w. induction acts as [|a acts IH]; intros w Hfree; [done|].
  cbn [reached] in *. apply Forall_cons in Hfree as [Ha Hfree].
  destruct a as [a|e args]; [|done].
  cbn [omap list_omap plain_action run_reentrant_actions run_actions
       run_reentrant_action].
  unfold mbind, D_bind, M_bind, lift.
  destruct (throws_at (Plain a)) eqn:Hthrow.
  - rewrite run_action_throws by done. done.
  - pose proof (run_action_returns a w Hthrow) as Hret.
    destruct (run_action a w) as [c w1]. simpl in Hret. subst c.
    by apply IH.
Qed.

Lemma run_reentrant_script_plain f args w :
  dispatch_free_listener rcode args (VFunction f) →
  run_reentrant_script nested_emit (rcode f args) w =
    Some (run_script (plain rcode f args) w).
Proof.
  intros Hfree. simpl in Hfree. unfold run_reentrant_script, run_script, plain.
  cbn [script_actions script_end]. unfold mbind, D_bind, M_bind.
  rewrite run_reentrant_actions_plain by done.
  destruct (run_actions _ w) as [[[]|e] w1]; [|done].
  by destruct (body_end (rcode f args)).
Qed.

Lemma fn_apply_reentrant_plain x args w :
  dispatch_free_listener rcode args x →
  fn_apply_reentrant rcode nested_emit x args w =
    Some (fn_apply (plain rcode) x args w).
Proof.
  intros Hfree. destruct x as [| | | | | |f| | |]; try done.
  unfold fn_apply_reentrant, fn_apply. unfold mbind, D_bind, M_bind, lift.
  unfold record_call. by rewrite run_reentrant_script_plain.
Qed.

Lemma emit_step_reentrant_plain event args l i w :
  dispatch_free_listener rcode args (default VUndefined (contents w l !! i)) →
  try_catch_D
    (x ← lift (array_get l i);
     fn_apply_reentrant rcode nested_emit x args ;; mret tt)
    (λ error, lift (console_error event error)) w =
  Some (try_catch (x ← array_get l i; fn_apply (plain rcode) x args ;; mret tt)
          (λ error, console_error event error) w).
Proof.
  intros Hfree. unfold try_catch_D, try_catch.
  unfold mbind, D_bind, M_bind, lift, array_get.
  rewrite fn_apply_reentrant_plain by done.
  by destruct (fn_apply (plain rcode) _ args w) as [[v|e] w1].
Qed.

Lemma emit_loop_reentrant_S event args l n i w :
  emit_loop_reentrant rcode nested_emit event args l (S n) i w =
    match
      try_catch_D
        (x ← lift (array_get l i);
         fn_apply_reentrant rcode nested_emit x args ;; mret tt)
        (λ error, lift (console_error event error)) w
    with
    | Some (Normal _, w') =>
        emit_loop_reentrant rcode nested_emit event args l n (S i) w'
    | Some (Throw e, w') => Some (Throw e, w')
    | None => None
    end.
Proof. reflexivity. Qed.

(** When every function of the program reaches no call of [emit] with
    these arguments, the loop is the one of [emit]. *)
Lemma emit_loop_reentrant_plain event args l n i w :
  (∀ f, dispatch_free_listener rcode args (VFunction f)) →
  emit_loop_reentrant rcode nested_emit event args l n i w =
    Some (emit_loop (plain rcode) event args l n i w).
Proof.
  intros Hfree. revert i w. induction n as [|n IH]; intros i w; [done|].
  rewrite emit_loop_reentrant_S, emit_loop_S.
  rewrite emit_step_reentrant_plain.
  2: { by destruct (default VUndefined (contents w l !! i)). }
  destruct (try_catch _ _ w) as [[v|e] w1]; [apply IH | done].
Qed.

(** When the listeners of the sequence reach no call of [emit] nor of
    [off] for the event, the loop is the one of [emit]. *)
Lemma emit_loop_reentrant_quiet event args l ls n i w :
  Forall (λ v, is_function v = true) ls →
  quiet (plain rcode) event args ls → dispatch_free rcode args ls →
  i + n = length ls → iterating event l ls w →
  emit_loop_reentrant rcode nested_emit event args l n i w =
    Some (emit_loop (plain rcode) event args l n i w).
Proof.
  intros Hfn Hq Hfree. revert i w.
  induction n as [|n IH]; intros i w Hlen Hit; [done|].
  destruct (lookup_lt_is_Some_2 ls i) as [v Hv]; [lia|].
  assert (Hf : is_function v = true).
  { eapply Forall_lookup_1 in Hfn; eauto. }
  destruct v as [| | | | | |f| | |]; try discriminate.
  assert (Hget : default VUndefined (contents w l !! i) = VFunction f).
  { destruct Hit as [_ [ext Hext]]. unfold contents. rewrite Hext. simpl.
    rewrite lookup_app_l by (by eapply lookup_lt_Some). by rewrite Hv. }
  destruct (emit_step_quiet (plain rcode) event args l ls i f w Hv)
    as (w1 & Hstep & Hit1 & _); [|done|].
  { intros a Ha. eapply quiet_elem; eauto using list_elem_of_lookup_2. }
  rewrite emit_loop_reentrant_S, emit_loop_S.
  rewrite emit_step_reentrant_plain.
  2: { rewrite Hget. unfold dispatch_free in Hfree.
       eapply Forall_lookup_1 in Hfree; [|exact Hv]. exact Hfree. }
  rewrite Hstep. apply IH; [lia|done].
Qed.

End Simulation.

(** ** The invariant, with listeners that dispatch *)

Section ReentrantInvariant.

Variable rcode : nat → list value → reentrant_script.

Section Step.

Variable nested_emit : string → list value → D value.

Hypothesis nested_emit_wf : ∀ event args w r w',
  nested_emit event args w = Some (r, w') → wf w → wf w'.

Lemma wf_run_reentrant_action a w r w' :
  run_reentrant_action nested_emit a w = Some (r, w') → wf w → wf w'.
Proof.
  destruct a as [a|event args]; simpl.
  - unfold lift. intros [= H] Hwf.
    replace w' with (run_action a w).2 by (by rewrite H).
    by apply wf_run_action.
  - apply nested_emit_wf.
Qed.

Lemma wf_run_reentrant_actions acts w r w' :
  run_reentrant_actions nested_emit acts w = Some (r, w') → wf w → wf w'.
Proof.
  revert w. induction acts as [|a acts IH]; intros w.
  { by intros [= <- <-]. }
  cbn [run_reentrant_actions]. unfold mbind, D_bind.
  destruct (run_reentrant_action nested_emit a w) as [[[v|e] w1]|] eqn:Ha;
    [| |done].
  - intros H Hwf. eapply IH; [exact H|]. by eapply wf_run_reentrant_action.
  - intros [= <- <-] Hwf. by eapply wf_run_reentrant_action.
Qed.

Lemma wf_run_reentrant_script s w r w' :
  run_reentrant_script nested_emit s w = Some (r, w') → wf w → wf w'.
Proof.
  unfold run_reentrant_script, mbind, D_bind.
  destruct (run_reentrant_actions nested_emit (body_actions s) w)
    as [[[v|e] w1]|] eqn:Ha; [| |done].
  - intros H Hwf. assert (w' = w1) as ->.
    { destruct (body_end s); by injection H as _ <-. }
    by eapply wf_run_reentrant_actions.
  - intros [= <- <-] Hwf. by eapply wf_run_reentrant_actions.
Qed.

Lemma wf_fn_apply_reentrant x args w r w' :
  fn_apply_reentrant rcode nested_emit x args w = Some (r, w') →
  wf w → wf w'.
Proof.
  destruct x as [| | | | | |f| | |]; try (by intros [= <- <-]).
  unfold fn_apply_reentrant, mbind, D_bind, lift. cbn beta iota.
  intros H Hwf. eapply wf_run_reentrant_script; [exact H|].
  revert Hwf. by apply wf_same_store.
Qed.

Lemma emit_step_reentrant_result event args l i w r w' :
  try_catch_D
    (x ← lift (array_get l i);
     fn_apply_reentrant rcode nested_emit x args ;; mret tt)
    (λ error, lift (console_error event error)) w = Some (r, w') →
  r = Normal tt ∧ (wf w → wf w').
Proof.
  unfold try_catch_D, mbind, D_bind, lift, array_get. cbn beta iota.
  destruct (fn_apply_reentrant rcode nested_emit _ args w)
    as [[[v|e] w1]|] eqn:Hap; [| |done]; intros [= <- <-].
  - split; [done|]. by eapply wf_fn_apply_reentrant.
  - split; [done|]. intros Hwf.
    apply (wf_same_store w1); [done|done|].
    by eapply wf_fn_apply_reentrant.
Qed.

Lemma emit_loop_reentrant_result event args l n i w r w' :
  emit_loop_reentrant rcode nested_emit event args l n i w = Some (r, w') →
  r = Normal tt ∧ (wf w → wf w').
Proof.
  revert i w. induction n as [|n IH]; intros i w.
  { by intros [= <- <-]. }
  rewrite emit_loop_reentrant_S.
  destruct (try_catch_D _ _ w) as [[c w1]|] eqn:Hstep; [|done].
  destruct (emit_step_reentrant_result _ _ _ _ _ _ _ Hstep) as [-> Hwf1].
  intros H. destruct (IH _ _ H) as [-> Hwf2]. auto.
Qed.

Lemma emit_at_result event args w r w' :
  emit_at rcode nested_emit event args w = Some (r, w') →
  (∃ b, r = Normal (VBool b) ∧
        (b = true ↔ ∃ ls, listeners_of w event = Some ls ∧ ls ≠ [])) ∧
  (wf w → wf w').
Proof.
  unfold emit_at, mbind, D_bind, lift, map_get, array_length.
  cbn beta iota. unfold listeners_of.
  destruct (events w !! event) as [l|] eqn:Hl.
  2: { intros [= <- <-]. split; [|done]. exists false. split; [done|].
       split; [done|]. by intros (ls & Hls & _). }
  unfold contents. case_bool_decide as Hlen.
  - intros [= <- <-]. split; [|done]. exists false. split; [done|].
    split; [done|]. intros (ls & Hls & Hne). simpl in Hls.
    rewrite Hls in Hlen. simpl in Hlen. by destruct ls.
  - destruct (emit_loop_reentrant rcode nested_emit event args l _ 0 w)
      as [[c w1]|] eqn:Hloop; [|done].
    destruct (emit_loop_reentrant_result _ _ _ _ _ _ _ _ Hloop) as [-> Hwf].
    intros [= <- <-]. split; [|done]. exists true. split; [done|].
    split; [|done]. intros _. simpl.
    destruct (arrays w !! l) as [ls|]; [|done].
    exists ls. split; [done|]. by destruct ls.
Qed.

End Step.

Lemma emit_reentrant_result depth event args w r w' :
  emit_reentrant rcode depth event args w = Some (r, w') →
  (∃ b, r = Normal (VBool b) ∧
        (b = true ↔ ∃ ls, listeners_of w event = Some ls ∧ ls ≠ [])) ∧
  (wf w → wf w').
Proof.
  revert event args w r w'. induction depth as [|depth IH];
    intros event args w r w' H; cbn [emit_reentrant] in H.
  - eapply emit_at_result; [|exact H]. by intros.
  - eapply emit_at_result; [|exact H].
    intros e a w0 r0 w0' H0. by destruct (IH _ _ _ _ _ H0).
Qed.

Lemma wf_run_call_reentrant depth c w r w' :
  run_call_reentrant rcode depth c w = Some (r, w') → wf w → wf w'.
Proof.
  destruct c as [e v|e v|e args|e]; simpl; unfold lift.
  - intros [= H]. replace w' with (on e v w).2 by (by rewrite H).
    apply wf_on.
  - intros [= H]. replace w' with (off e v w).2 by (by rewrite H).
    apply wf_off.
  - intros H. by destruct (emit_reentrant_result _ _ _ _ _ _ H).
  - intros [= H]. replace w' with (removeAllListeners e w).2 by (by rewrite H).
    apply wf_removeAllListeners.
Qed.

Lemma reachable_reentrant_wf w : reachable_reentrant rcode w → wf w.
Proof.
  induction 1 as [|w depth c r w' _ IH Hcall]; [apply wf_new_emitter|].
  by eapply wf_run_call_reentrant.
Qed.

End ReentrantInvariant.

(** ** Dispatches in which no call of [emit] is reached *)

Section PlainDispatch.

Variable rcode : nat → list value → reentrant_script.

Lemma emit_reentrant_unfold depth :
  emit_reentrant rcode depth =
    emit_at rcode
      (match depth with
       | 0 => λ _ _, no_result
       | S depth' => emit_reentrant rcode depth'
       end).
Proof. by destruct depth. Qed.

Lemma emit_at_plain nested_emit event args w :
  (∀ l n, events w !! event = Some l → n = length (contents w l) →
     emit_loop_reentrant rcode nested_emit event args l n 0 w =
       Some (emit_loop (plain rcode) event args l n 0 w)) →
  emit_at rcode nested_emit event args w =
    Some (emit (plain rcode) event args w).
Proof.
  intros Hloop. unfold emit_at, emit.
  unfold mbind, D_bind, M_bind, lift, map_get, array_length. cbn beta iota.
  destruct (events w !! event) as [l|] eqn:Hl; [|done].
  case_bool_decide; [done|]. rewrite (Hloop l _ eq_refl eq_refl).
  by destruct (emit_loop (plain rcode) event args l _ 0 w) as [[[]|e] w1].
Qed.

Lemma emit_reentrant_plain depth event args w :
  (∀ f, dispatch_free_listener rcode args (VFunction f)) →
  emit_reentrant rcode depth event args w =
    Some (emit (plain rcode) event args w).
Proof.
  intros Hfree. rewrite emit_reentrant_unfold. apply emit_at_plain.
  intros l n _ _. by apply emit_loop_reentrant_plain.
Qed.

Lemma emit_reentrant_quiet depth event args w ls :
  wf w → listeners_of w event = Some ls →
  quiet (plain rcode) event args ls → dispatch_free rcode args ls →
  emit_reentrant rcode depth event args w =
    Some (emit (plain rcode) event args w).
Proof.
  intros Hwf Hls Hq Hfree. rewrite emit_reentrant_unfold.
  apply emit_at_plain. intros l n Hl ->.
  destruct (listeners_of_Some _ _ _ Hls) as (l' & Hl' & Harr & Hc).
  assert (l' = l) as -> by congruence. rewrite Hc.
  destruct (listeners_of_good _ _ _ Hwf Hls) as (_ & _ & Hfn).
  apply (emit_loop_reentrant_quiet rcode _ event args l ls); try done.
  by apply iterating_start.
Qed.

Lemma emit_reentrant_single depth event args w f :
  listeners_of w event = Some [VFunction f] →
  dispatch_free_listener rcode args (VFunction f) →
  emit_reentrant rcode depth event args w =
    Some (emit (plain rcode) event args w).
Proof.
  intros Hls Hfree. rewrite emit_reentrant_unfold.
  apply emit_at_plain. intros l n Hl ->.
  destruct (listeners_of_Some _ _ _ Hls) as (l' & Hl' & Harr & Hc).
  assert (l' = l) as -> by congruence. rewrite Hc.
  change (length [VFunction f]) with 1.
  rewrite emit_loop_reentrant_S, emit_loop_S.
  rewrite emit_step_reentrant_plain by (by rewrite Hc).
  by destruct (try_catch _ _ w) as [[v|e] w1].
Qed.

Lemma reachable_reentrant_on event listener w :
  reachable_reentrant rcode w →
  reachable_reentrant rcode (on event listener w).2.
Proof.
  intros Hw.
  apply (reachable_reentrant_call rcode w 0 (On event listener)
           (on event listener w).1); [done|].
  simpl. unfold lift. by destruct (on event listener w).
Qed.

End PlainDispatch.

Lemma reached_embed (acts : list action) :
  Forall (λ a, calls_emit a = false) (reached (Plain <$> acts)).
Proof.
  induction acts as [|a acts IH]; [constructor|].
  rewrite fmap_cons. cbn [reached]. constructor; [done|].
  destruct (throws_at (Plain a)); [constructor | done].
Qed.

Lemma dispatch_free_embed code args v :
  dispatch_free_listener (embed code) args v.
Proof. destruct v; try done. apply reached_embed. Qed.

(** A dispatch inside a dispatch: [h0], registered for ["x"], emits
    ["y"], whose listeners [h1] and [h2] run before [emit("x")]
    returns; the error of [h1] is reported under ["y"]. *)
Example scenario_nested_dispatch :
  let w := (on "y" (VFunction 2)
             (on "y" (VFunction 1)
               (on "x" (VFunction 0) new_emitter).2).2).2 in
  (λ r, (r.1, calls r.2, console r.2)) <$>
    emit_reentrant dispatching_code 1 "x" [] w =
  Some (Normal (VBool true),
        [(VFunction 0, []); (VFunction 1, [VNumber 1]);
         (VFunction 2, [VNumber 1])],
        [("y", VString "boom")]) ∧
  emit_reentrant dispatching_code 0 "x" [] w = None.
Proof. vm_compute. done. Qed.

(** A listener that registers [h2] for ["x"] and dispatches ["x"] again
    from inside the dispatch of ["x"]: the inner dispatch calls [h2]
    before the outer one returns. *)
Example scenario_dispatch_again :
  let w := (on "x" (VFunction 3) new_emitter).2 in
  (λ r, (r.1, calls r.2)) <$> emit_reentrant dispatching_code 1 "x" [] w =
  Some (Normal (VBool true),
        [(VFunction 3, []); (VFunction 3, [VNumber 1]);
         (VFunction 2, [VNumber 1])]).
Proof. vm_compute. done. Qed.

(** In a program where no function called with [args] reaches a call
    of [emit], whatever calls of [on], [off] and [removeAllListeners]
    the listeners make, one [emit] with [args] runs as many iterations
    as the sequence had listeners when it started: it calls at most
    that many listeners and writes at most that many reports, and every
    iteration leaves a call or a report. *)
Theorem emit_bounded rcode depth event args w ls :
  reachable_reentrant rcode w → listeners_of w event = Some ls →
  (∀ f, dispatch_free_listener rcode args (VFunction f)) →
  ∃ w' trace reports,
    emit_reentrant rcode depth event args w = Some (Normal (VBool true), w') ∧
    calls w' = calls w ++ trace ∧
    console w' = console w ++ reports ∧
    length trace ≤ length ls ∧
    length reports ≤ length ls ∧
    length ls ≤ length trace + length reports.
Proof.
  intros Hreach Hls Hfree. apply reachable_reentrant_wf in Hreach.
  destruct (emit_bounded_wf (plain rcode) event args w ls Hreach Hls)
    as (w' & trace & reports & Hemit & H).
  exists w', trace, reports. split; [|done].
  rewrite emit_reentrant_plain by done. by rewrite Hemit.
Qed.

Lemma emit_bounded_witness :
  let w := (on "x" (VFunction 1) (on "x" (VFunction 3) new_emitter).2).2 in
  ∃ w' trace reports,
    emit_reentrant (embed sample_code) 0 "x" [] w =
      Some (Normal (VBool true), w') ∧
    calls w' = calls w ++ trace ∧
    console w' = console w ++ reports ∧
    length trace ≤ 2 ∧ length reports ≤ 2 ∧
    2 ≤ length trace + length reports.
Proof.
  intros w.
  apply (emit_bounded (embed sample_code) 0 "x" [] w
           [VFunction 3; VFunction 1]).
  - do 2 apply reachable_reentrant_on. apply reachable_reentrant_new.
  - reflexivity.
  - intros f. apply dispatch_free_embed.
Defined.

(** When the sequence of the event holds a single listener and its body
    reaches no call of [emit], [emit] calls it exactly once with [args]
    and returns [true], whatever calls of [on], [off] and
    [removeAllListeners] it makes and whatever the other functions of
    the program do; its error, if it throws, is the one report. *)
Theorem single_listener_called_once rcode depth event args w f :
  listeners_of w event = Some [VFunction f] →
  dispatch_free_listener rcode args (VFunction f) →
  ∃ w',
    emit_reentrant rcode depth event args w = Some (Normal (VBool true), w') ∧
    calls w' = calls w ++ [(VFunction f, args)] ∧
    console w' =
      console w ++ omap (report (plain rcode) event args) [VFunction f].
Proof.
  intros Hls Hfree.
  destruct (single_listener_plain (plain rcode) event args w f Hls)
    as (w' & Hemit & H).
  exists w'. split; [|done].
  rewrite (emit_reentrant_single rcode depth event args w f) by done.
  by rewrite Hemit.
Qed.

Lemma single_listener_called_once_witness :
  let w := (on "x" (VFunction 6) new_emitter).2 in
  ∃ w',
    emit_reentrant dispatching_code 0 "x" [] w =
      Some (Normal (VBool true), w') ∧
    calls w' = calls w ++ [(VFunction 6, [])] ∧
    console w' = console w ++ [("x", not_a_function)].
Proof.
  intros w.
  apply (single_listener_called_once dispatching_code 0 "x" [] w 6).
  - reflexivity.
  - repeat constructor.
Defined.

(** A listener registered for the event while the event is being
    dispatched is not called in that dispatch, and is in the sequence
    after it.  When no listener of the sequence reaches a call of
    [emit], of [off] for the event or of [removeAllListeners]: [emit]
    calls the listeners the sequence had when it started and no other;
    afterwards the sequence is the old one followed by the listeners
    added meanwhile, and every function a listener handed to [on] for
    this event is in it. *)
Theorem registered_during_dispatch rcode depth event args w ls :
  reachable_reentrant rcode w → listeners_of w event = Some ls →
  keeping (plain rcode) event args ls → dispatch_free rcode args ls →
  ∃ w' added,
    emit_reentrant rcode depth event args w = Some (Normal (VBool true), w') ∧
    calls w' = calls w ++ ((λ v, (v, args)) <$> ls) ∧
    listeners_of w' event = Some (ls ++ added) ∧
    ∀ f g, VFunction f ∈ ls →
      registers event g (script_actions (plain rcode f args)) →
      g ∈ ls ++ added.
Proof.
  intros Hreach Hls Hkeep Hfree. apply reachable_reentrant_wf in Hreach.
  destruct (registered_during_dispatch_wf (plain rcode) event args w ls
              Hreach Hls Hkeep) as (w' & added & Hemit & H).
  exists w', added. split; [|done].
  rewrite (emit_reentrant_quiet rcode depth event args w ls)
    by auto using keeping_quiet.
  by rewrite Hemit.
Qed.

Lemma registered_during_dispatch_witness :
  let w := (on "x" (VFunction 5) new_emitter).2 in
  ∃ w' added,
    emit_reentrant dispatching_code 0 "x" [] w =
      Some (Normal (VBool true), w') ∧
    calls w' = calls w ++ [(VFunction 5, [])] ∧
    listeners_of w' "x" = Some ([VFunction 5] ++ added) ∧
    VFunction 2 ∈ [VFunction 5] ++ added.
Proof.
  intros w.
  destruct (registered_during_dispatch dispatching_code 0 "x" [] w
              [VFunction 5])
    as (w' & added & Hemit & Hcalls & Hseq & Hreg).
  { apply reachable_reentrant_on, reachable_reentrant_new. }
  { reflexivity. }
  { repeat constructor. }
  { repeat constructor. }
  exists w', added. split; [exact Hemit|]. split; [exact Hcalls|].
  split; [exact Hseq|]. apply (Hreg 5 (VFunction 2)).
  - apply list_elem_of_singleton. reflexivity.
  - exists [], []. split; [reflexivity|]. split; reflexivity.
Defined.

(** When no listener of the sequence reaches a call of [emit] or a call
    of [off] for the event during the dispatch, [emit] calls every
    listener of the sequence exactly once, in the order of registration
    and each with [args], those behind a listener that throws included;
    the console receives one report for each listener that throws, and
    [emit] returns [true]. *)
Theorem emit_calls_every_listener rcode depth event args w ls :
  reachable_reentrant rcode w → listeners_of w event = Some ls →
  quiet (plain rcode) event args ls → dispatch_free rcode args ls →
  NoDup ls ∧
  ∃ w',
    emit_reentrant rcode depth event args w = Some (Normal (VBool true), w') ∧
    calls w' = calls w ++ ((λ v, (v, args)) <$> ls) ∧
    console w' = console w ++ omap (report (plain rcode) event args) ls.
Proof.
  intros Hreach Hls Hq Hfree. apply reachable_reentrant_wf in Hreach.
  split; [by destruct (listeners_of_good _ _ _ Hreach Hls) as (_ & Hnd & _)|].
  destruct (emit_quiet (plain rcode) event args ls w Hreach Hls Hq)
    as (w' & Hemit & H).
  exists w'. split; [|done].
  rewrite (emit_reentrant_quiet rcode depth event args w ls) by done.
  by rewrite Hemit.
Qed.

Lemma emit_calls_every_listener_witness :
  let w := (on "x" (VFunction 2)
             (on "x" (VFunction 1)
               (on "x" (VFunction 6) new_emitter).2).2).2 in
  ∃ w',
    emit_reentrant dispatching_code 0 "x" [VNumber 1] w =
      Some (Normal (VBool true), w') ∧
    calls w' =
      calls w ++ [(VFunction 6, [VNumber 1]); (VFunction 1, [VNumber 1]);
                  (VFunction 2, [VNumber 1])] ∧
    console w' =
      console w ++ [("x", not_a_function); ("x", VString "boom")].
Proof.
  intros w.
  apply (emit_calls_every_listener dispatching_code 0 "x" [VNumber 1] w
           [VFunction 6; VFunction 1; VFunction 2]).
  - do 3 apply reachable_reentrant_on. apply reachable_reentrant_new.
  - reflexivity.
  - repeat constructor.
  - repeat constructor.
Defined.

(** An error thrown by a listener never leaves [emit]: whenever [emit]
    returns, in a dispatch however nested, it returns a boolean, [true]
    exactly when the event was a key of the map when it was called; and
    it does return when no function called with [args] reaches a call
    of [emit]. *)
Theorem emit_never_throws_to_caller rcode depth event args w :
  reachable_reentrant rcode w →
  (∀ r w', emit_reentrant rcode depth event args w = Some (r, w') →
     r = Normal (VBool (bool_decide (event ∈ dom (events w))))) ∧
  ((∀ f, dispatch_free_listener rcode args (VFunction f)) →
   is_Some (emit_reentrant rcode depth event args w)).
Proof.
  intros Hreach. apply reachable_reentrant_wf in Hreach. split.
  - intros r w' H.
    destruct (emit_reentrant_result _ _ _ _ _ _ _ H) as [(b & -> & Hb) _].
    do 2 f_equal. destruct b.
    + destruct (proj1 Hb eq_refl) as (ls & Hls & _).
      destruct (listeners_of_Some _ _ _ Hls) as (l & Hl & _).
      symmetry. apply bool_decide_eq_true_2, elem_of_dom. eauto.
    + symmetry. apply bool_decide_eq_false_2. intros [l Hl]%elem_of_dom.
      destruct (wf_contents _ _ _ Hreach Hl) as [Harr (Hne & _)].
      assert (false = true); [|done]. apply Hb.
      exists (contents w l). split; [|done].
      unfold listeners_of. by rewrite Hl.
  - intros Hfree. by rewrite emit_reentrant_plain.
Qed.

Lemma emit_never_throws_to_caller_witness :
  let w := (on "y" (VFunction 1) (on "x" (VFunction 0) new_emitter).2).2 in
  fst <$> emit_reentrant dispatching_code 1 "x" [] w =
    Some (Normal (VBool true)).
Proof.
  intros w.
  destruct (emit_reentrant dispatching_code 1 "x" [] w) as [[r w']|] eqn:H;
    [|vm_compute in H; discriminate].
  simpl. f_equal.
  apply (emit_never_throws_to_caller dispatching_code 1 "x" [] w) in H.
  - exact H.
  - do 2 apply reachable_reentrant_on. apply reachable_reentrant_new.
Defined.

(** Registration is idempotent: [on] with a function that is already in
    the sequence of the event returns the emitter and leaves the world
    as it is, so a second [on] with the same arguments changes nothing
    after the first. *)
Theorem on_idempotent event listener w :
  is_function listener = true →
  (∀ ls, listeners_of w event = Some ls → listener ∈ ls →
     on event listener w = (Normal VThis, w)) ∧
  on event listener (on event listener w).2 =
    (Normal VThis, (on event listener w).2).
Proof.
  intros Hf. split.
  - intros ls. by apply on_listed.
  - destruct (on_registers event listener w Hf) as (ls & Hls & Hin).
    by eapply on_listed.
Qed.

Lemma on_idempotent_witness :
  let w := (on "x" (VFunction 4) new_emitter).2 in
  let w1 := (on "x" (VFunction 1) w).2 in
  listeners_of w1 "x" = Some [VFunction 4; VFunction 1] ∧
  on "x" (VFunction 1) w1 = (Normal VThis, w1) ∧
  on "x" (VFunction 4) w1 = (Normal VThis, w1).
Proof.
  intros w w1.
  destruct (on_idempotent "x" (VFunction 1) w) as [_ Htwice];
    [reflexivity|].
  destruct (on_idempotent "x" (VFunction 4) w1) as [Hpresent _];
    [reflexivity|].
  split; [reflexivity|]. split; [exact Htwice|].
  apply (Hpresent [VFunction 4; VFunction 1]); [reflexivity|].
  apply elem_of_cons. by left.
Defined.
